(** * RAG preprocessing: markdown sectioning (rag/preprocess.py)

    A shallow embedding of [chunk_markdown] and of the text preparation of
    [generate_embeddings], with the properties of the sectioning algorithm.

    Python strings are sequences of Unicode code points: a character is a
    code point ([N]) and a string a list of them.  The regular expression
    of the header test is kept as data and run by a small greedy
    backtracking matcher, list index assignment can fail as in Python, and
    the loop over the lines is a fold of a step function over an explicit
    state record. *)

From Stdlib Require Import String Ascii.
From Stdlib Require Import List Bool Arith Lia NArith ZArith FinFun.
From Stdlib Require Import Numbers.DecimalString Numbers.DecimalNat.
Import ListNotations.

Local Open Scope string_scope.
Local Open Scope nat_scope.
Local Open Scope list_scope.

(** ** Characters and strings *)

Definition char := N.
Definition str := list char.

Definition nl : char := 10%N.        (* '\n' *)
Definition hash : char := 35%N.      (* '#' *)

(** Rocq string literals (ASCII) as Python strings. *)
Fixpoint of_string (s : string) : str :=
  match s with
  | EmptyString => []
  | String a r => N_of_ascii a :: of_string r
  end.

Definition in_range (lo hi c : N) : bool := (N.leb lo c && N.leb c hi)%bool.

(** [str.isspace] on one character, which is also the class [\s] of [re]
    on [str] patterns: the code points CPython lists as whitespace. *)
Definition isspace (c : char) : bool :=
  (in_range 9 13 c || in_range 28 32 c || N.eqb c 133 || N.eqb c 160
   || N.eqb c 5760 || in_range 8192 8202 c || N.eqb c 8232 || N.eqb c 8233
   || N.eqb c 8239 || N.eqb c 8287 || N.eqb c 12288)%bool.

Definition all_space (s : str) : bool := forallb isspace s.

Fixpoint drop_while (p : char -> bool) (s : str) : str :=
  match s with
  | [] => []
  | c :: r => if p c then drop_while p r else s
  end.

Definition lstrip (s : str) : str := drop_while isspace s.
Definition rstrip (s : str) : str := rev (drop_while isspace (rev s)).

(** [s.strip()] *)
Definition strip (s : str) : str := rstrip (lstrip s).

(** [s.split('\n')]: never empty, the empty string gives one empty line. *)
Fixpoint split_nl (s : str) : list str :=
  match s with
  | [] => [[]]
  | c :: r =>
      if N.eqb c nl then [] :: split_nl r
      else match split_nl r with
           | l :: ls => (c :: l) :: ls
           | [] => [[c]]
           end
  end.

(** [sep.join(parts)] *)
Fixpoint join (sep : str) (parts : list str) : str :=
  match parts with
  | [] => []
  | [p] => p
  | p :: ps => p ++ sep ++ join sep ps
  end.

(** Decimal numeral of a natural number, as [f"{n}"] prints it. *)
Definition decimal (n : nat) : str :=
  of_string (NilEmpty.string_of_uint (Nat.to_uint n)).

(** ** The regular expression of the header test

    [re.match(r'^(#{1,5})\s+(.+)$', line)]: a sequence of greedy
    repetitions of a character class, some of them capturing, anchored at
    both ends. *)

Inductive cclass := CHash | CSpace | CDot.

Definition cmatch (k : cclass) (c : char) : bool :=
  match k with
  | CHash => N.eqb c hash
  | CSpace => isspace c
  | CDot => negb (N.eqb c nl)          (* no DOTALL: anything but '\n' *)
  end.

Record item := Rep {
  cls : cclass;
  rmin : nat;
  rmax : option nat;                   (* None: unbounded *)
  capture : bool
}.

(** Longest run of characters of the class at the head of [s], cut at the
    upper bound: where a greedy repetition starts. *)
Fixpoint max_run (k : cclass) (hi : option nat) (s : str) : nat :=
  match hi with
  | Some 0 => 0
  | _ =>
      match s with
      | [] => 0
      | c :: r =>
          if cmatch k c
          then S (max_run k (option_map Nat.pred hi) r)
          else 0
      end
  end.

(** Backtracking: try [n], [n-1], ... down to [lo] repetitions; the first
    count for which the rest of the pattern matches wins. *)
Fixpoint backtrack {A : Type} (lo : nat) (f : nat -> option A) (n : nat)
  : option A :=
  if n <? lo then None
  else match f n with
       | Some r => Some r
       | None => match n with
                 | 0 => None
                 | S n' => backtrack lo f n'
                 end
       end.

(** [$] without MULTILINE: at the end, or before a final newline. *)
Definition at_end (s : str) : bool :=
  match s with
  | [] => true
  | [c] => N.eqb c nl
  | _ => false
  end.

(** The groups of the first match found, in order. *)
Fixpoint match_items (items : list item) (s : str) : option (list str) :=
  match items with
  | [] => if at_end s then Some [] else None
  | it :: rest =>
      backtrack (rmin it)
        (fun n =>
           match match_items rest (skipn n s) with
           | Some gs => Some (if capture it then firstn n s :: gs else gs)
           | None => None
           end)
        (max_run (cls it) (rmax it) s)
  end.

(** [^(#{1,5})\s+(.+)$] *)
Definition header_re : list item :=
  [ Rep CHash 1 (Some 5) true; Rep CSpace 1 None false; Rep CDot 1 None true ].

(** [header_match]: [group(1)] and [group(2)] when the line matches. *)
Definition header_match (line : str) : option (str * str) :=
  match match_items header_re line with
  | Some [g1; g2] => Some (g1, g2)
  | _ => None
  end.

Arguments of_string s%_string.

(** ** [chunk_markdown] *)

Record Chunk := mkChunk {
  id : str;
  source : str;
  headers : list str;
  text : str
}.

(** [l[i] = v] on a Python list: a negative index counts from the end and
    an index out of range raises IndexError ([None]). *)
Fixpoint set_nth {A : Type} (l : list A) (i : nat) (v : A) : option (list A) :=
  match l, i with
  | [], _ => None
  | _ :: r, 0 => Some (v :: r)
  | x :: r, S i' => option_map (cons x) (set_nth r i' v)
  end.

Definition setitem {A : Type} (l : list A) (i : Z) (v : A) : option (list A) :=
  let n := Z.of_nat (length l) in
  let j := if (i <? 0)%Z then (i + n)%Z else i in
  if (j <? 0)%Z then None else set_nth l (Z.to_nat j) v.

(** [for i in range(level, 5): current_headers[i] = ''] *)
Fixpoint clear_slots (hs : list str) (idx : list nat) : option (list str) :=
  match idx with
  | [] => Some hs
  | i :: rest =>
      match setitem hs (Z.of_nat i) [] with
      | Some hs' => clear_slots hs' rest
      | None => None
      end
  end.

(** Lines 47-52: the hierarchy update of a header of the given level. *)
Definition update_headers (hs : list str) (level : nat) (header_text : str)
  : option (list str) :=
  match setitem hs (Z.of_nat level - 1)%Z header_text with
  | Some hs' => clear_slots hs' (seq level (5 - level))
  | None => None
  end.

(** [[h for h in current_headers if h]] *)
Definition nonempty (s : str) : bool :=
  match s with [] => false | _ => true end.

Definition active_headers (hs : list str) : list str := filter nonempty hs.

(** The local variables of the loop. *)
Record state := mkState {
  chunks : list Chunk;
  current_chunk : list str;
  current_headers : list str;
  chunk_id : nat
}.

Definition init : state :=
  mkState [] [] [[]; []; []; []; []] 0.

(** [f"{source}_{chunk_id}"] *)
Definition format_id (src : str) (n : nat) : str :=
  src ++ of_string "_" ++ decimal n.

(** The chunk built from the accumulator, when its stripped text is not
    empty (lines 35-42 and 60-67). *)
Definition make_chunk (src : str) (st : state) : option Chunk :=
  match strip (join [nl] (current_chunk st)) with
  | [] => None
  | t => Some (mkChunk (format_id src (chunk_id st)) src
                       (active_headers (current_headers st)) t)
  end.

(** Lines 34-44: save the current chunk if not empty, then reset the
    accumulator. *)
Definition flush (src : str) (st : state) : state :=
  match current_chunk st with
  | [] => st
  | _ =>
      match make_chunk src st with
      | Some c => mkState (chunks st ++ [c]) [] (current_headers st)
                          (S (chunk_id st))
      | None => mkState (chunks st) [] (current_headers st) (chunk_id st)
      end
  end.

(** One iteration of the loop over the lines (lines 28-56). *)
Definition step (src : str) (st : state) (line : str) : option state :=
  match header_match line with
  | Some (g1, g2) =>
      let st1 := flush src st in
      match update_headers (current_headers st1) (length g1) (strip g2) with
      | Some hs => Some (mkState (chunks st1) (current_chunk st1 ++ [line])
                                 hs (chunk_id st1))
      | None => None
      end
  | None =>
      Some (mkState (chunks st) (current_chunk st ++ [line])
                    (current_headers st) (chunk_id st))
  end.

Fixpoint run (src : str) (st : state) (lines : list str) : option state :=
  match lines with
  | [] => Some st
  | line :: rest =>
      match step src st line with
      | Some st' => run src st' rest
      | None => None
      end
  end.

(** Lines 58-69: the last chunk, and the value returned. *)
Definition finish (src : str) (st : state) : list Chunk :=
  match current_chunk st with
  | [] => chunks st
  | _ =>
      match make_chunk src st with
      | Some c => chunks st ++ [c]
      | None => chunks st
      end
  end.

(** [chunk_markdown(content, source)]; [None] stands for a raised
    exception. *)
Definition chunk_markdown (content src : str) : option (list Chunk) :=
  match run src init (split_nl content) with
  | Some st => Some (finish src st)
  | None => None
  end.

(** ** [generate_embeddings]

    The model is a collaborator: it is taken as its [encode] function.
    The printed progress messages are not modelled. *)

(** Lines 80-83: the texts handed to the model. *)
Definition embedding_text (c : Chunk) : str :=
  let header_prefix :=
    match headers c with
    | [] => []
    | hs => join (of_string " > ") hs ++ [nl]
    end in
  header_prefix ++ text c.

Definition embedding_texts (cs : list Chunk) : list str :=
  fold_left (fun texts c => texts ++ [embedding_text c]) cs [].

Definition generate_embeddings {E : Type} (encode : list str -> E)
  (cs : list Chunk) : E :=
  encode (embedding_texts cs).

(** ** [main]

    The directory is taken as the list of its markdown files in the
    order [glob] gives them, each with its stem and with what
    [read_text] gives for it: its content, or nothing when reading
    raises.  The model and the two output files are collaborators that
    can raise as well.  Printing is not modelled. *)

Record collaborators (E : Type) : Type := {
  (* loading the model and [model.encode]; [None]: one of them raises *)
  model_encode : list str -> option E;
  (* opening chunks.json and [json.dump]; [false]: one of them raises *)
  write_chunks : list Chunk -> bool;
  (* [embeddings.tolist()], opening embeddings.json and [json.dump] *)
  write_embeddings : E -> bool
}.

Arguments model_encode {E} c _.
Arguments write_chunks {E} c _.
Arguments write_embeddings {E} c _.

(** Lines 104-112: [all_chunks.extend(chunks)] for every file; [None]
    when reading a file or chunking it raises. *)
Fixpoint collect_chunks (md_files : list (str * option str))
  (all_chunks : list Chunk) : option (list Chunk) :=
  match md_files with
  | [] => Some all_chunks
  | (stem, read) :: rest =>
      match read with
      | None => None
      | Some content =>
          match chunk_markdown content stem with
          | Some chunks => collect_chunks rest (all_chunks ++ chunks)
          | None => None
          end
      end
  end.

(** How [main] ends and what it leaves on disk. *)
Inductive outcome (E : Type) : Type :=
| NoMarkdownFiles          (* early return, nothing written *)
| Raised (chunks_json : option (list Chunk))
                           (* an exception; chunks.json if it was written *)
| Saved (chunks_json : list Chunk) (embeddings_json : E).

Arguments NoMarkdownFiles {E}.
Arguments Raised {E} chunks_json.
Arguments Saved {E} chunks_json embeddings_json.

(** Lines 91-129. *)
Definition main {E : Type} (io : collaborators E)
  (md_files : list (str * option str)) : outcome E :=
  match md_files with
  | [] => NoMarkdownFiles
  | _ =>
      match collect_chunks md_files [] with
      | None => Raised None
      | Some all_chunks =>
          match generate_embeddings (model_encode io) all_chunks with
          | None => Raised None
          | Some embeddings =>
              if write_chunks io all_chunks then
                if write_embeddings io embeddings
                then Saved all_chunks embeddings
                else Raised (Some all_chunks)
              else Raised None
          end
      end
  end.

(** ** Vocabulary of the properties *)

Definition is_hash (c : char) : bool := N.eqb c hash.

Fixpoint count_while (p : char -> bool) (s : str) : nat :=
  match s with
  | [] => 0
  | c :: r => if p c then S (count_while p r) else 0
  end.

(** The number of [#] characters a line starts with. *)
Definition leading_hashes (line : str) : nat := count_while is_hash line.

(** No whitespace at either end. *)
Definition trimmed (s : str) : Prop :=
  (forall a r, s = a :: r -> isspace a = false) /\
  (forall r a, s = r ++ [a] -> isspace a = false).

(** Where the lines of a chunk stop: at a header line or at the end of
    the document. *)
Definition boundary (l2 : list str) : Prop :=
  match l2 with
  | [] => True
  | h :: _ => header_match h <> None
  end.

(** Whether a line passes the header test. *)
Definition is_header (line : str) : bool :=
  match header_match line with
  | Some _ => true
  | None => false
  end.

(** Chunk [c] is the [i]-th chunk of the source, made of the run of lines
    [seg] that follows [l1], with the hierarchy as it stood after these
    lines. *)
Definition chunk_from (src : str) (lines : list str) (i : nat) (c : Chunk)
  (l1 seg l2 : list str) : Prop :=
  lines = l1 ++ seg ++ l2 /\
  id c = format_id src i /\ source c = src /\
  text c = strip (join [nl] seg) /\ text c <> [] /\
  exists stc,
    run src init (l1 ++ seg) = Some stc /\
    current_chunk stc = seg /\
    headers c = active_headers (current_headers stc).

(** What holds of the local variables once [lines] have been processed. *)
Definition Inv (src : str) (lines : list str) (st : state) : Prop :=
  run src init lines = Some st /\
  length (current_headers st) = 5 /\
  chunk_id st = length (chunks st) /\
  (exists p, lines = p ++ current_chunk st /\
             (chunks st = [] -> forallb all_space p = true)) /\
  (forall i c, nth_error (chunks st) i = Some c ->
     exists l1 seg h r,
       chunk_from src lines i c l1 seg (h :: r) /\ header_match h <> None).

(** The lines of a document cut before every header line: the lines
    before the first header, then one run of lines per header line. *)
Fixpoint sections (lines : list str) : list (list str) :=
  match lines with
  | [] => [[]]
  | l :: r =>
      match sections r with
      | s :: ss => if is_header l then [] :: (l :: s) :: ss
                   else (l :: s) :: ss
      | [] => [[l]]
      end
  end.

(** The text a run of lines gives, and the texts that are kept. *)
Definition section_text (seg : list str) : str := strip (join [nl] seg).

Definition section_texts (segs : list (list str)) : list str :=
  filter nonempty (map section_text segs).

(** The accumulator put in front of the first run. *)
Definition prepend (cc : list str) (segs : list (list str))
  : list (list str) :=
  match segs with
  | s :: ss => (cc ++ s) :: ss
  | [] => [cc]
  end.

(** A slot holds a stripped text without newline. *)
Definition slot_ok (h : str) : Prop := trimmed h /\ ~ In nl h.

(** The hierarchy has its five slots, all of that kind. *)
Definition hierarchy_ok (st : state) : Prop :=
  length (current_headers st) = 5 /\ Forall slot_ok (current_headers st).

(** What the hierarchy is, given the line that opened the accumulator:
    untouched when that line is not a header line, and with the text of
    the header in the slot of its level and nothing deeper otherwise. *)
Definition opened_by (st : state) : Prop :=
  match current_chunk st with
  | [] => current_headers st = current_headers init
  | h :: _ =>
      match header_match h with
      | None => current_headers st = current_headers init
      | Some (g1, g2) =>
          nth (length g1 - 1) (current_headers st) [] = strip g2 /\
          forall j, length g1 <= j -> nth j (current_headers st) [] = []
      end
  end.

(** A file that is read without error. *)
Definition readable (f : str * str) : str * option str :=
  (fst f, Some (snd f)).

(** The chunks of each file, file by file. *)
Definition chunks_of_files (md_files : list (str * str))
  (css : list (list Chunk)) : Prop :=
  Forall2 (fun f cs => chunk_markdown (snd f) (fst f) = Some cs) md_files css.

(** A chunk without its id and source. *)
Definition unlabelled (c : Chunk) : list str * str := (headers c, text c).

(** Two states that differ by the labels of their chunks at most. *)
Definition same_content (st1 st2 : state) : Prop :=
  map unlabelled (chunks st1) = map unlabelled (chunks st2) /\
  current_chunk st1 = current_chunk st2 /\
  current_headers st1 = current_headers st2.

(** The headers [b] keep a prefix of the headers [a] and add one header
    at most. *)
Definition next_headers (a b : list str) : Prop :=
  exists outer rest own,
    a = outer ++ rest /\ b = outer ++ own /\ length own <= 1.

Definition consecutive_ok (cs : list Chunk) : Prop :=
  forall i c c',
    nth_error cs i = Some c -> nth_error cs (S i) = Some c' ->
    next_headers (headers c) (headers c').

(** What the loop keeps about the last chunk emitted so far. *)
Definition tracks_last (st : state) : Prop :=
  length (current_headers st) = 5 /\
  consecutive_ok (chunks st) /\
  forall cs clast,
    chunks st = cs ++ [clast] ->
    next_headers (headers clast) (active_headers (current_headers st)) /\
    exists h t, current_chunk st = h :: t /\ header_match h <> None.

(** The document of the hierarchy reset scenario. *)
Definition doc_reset : str :=
  join [nl] (map of_string
    ["# H1"; ""; "## H2"; ""; "### H3"; ""; "X"; ""; "## H2b"; ""; "Y"]).

(** * Properties *)

(** ** Whitespace and stripping *)

Lemma isspace_hash : isspace hash = false.
Proof. reflexivity. Qed.

Lemma drop_while_decomp p s :
  exists a, s = a ++ drop_while p s /\ forallb p a = true.
Proof.
  induction s as [|c r IH]; simpl.
  - exists []; auto.
  - destruct (p c) eqn:E.
    + destruct IH as (a & Ha & Hp). exists (c :: a); simpl.
      rewrite E, Hp. split; [congruence | reflexivity].
    + exists []; auto.
Qed.

Lemma drop_while_head p s c r :
  drop_while p s = c :: r -> p c = false.
Proof.
  induction s as [|x s IH]; simpl; [discriminate|].
  destruct (p x) eqn:E; auto. intros H; injection H as -> _; exact E.
Qed.

Lemma drop_while_all p s : forallb p s = true -> drop_while p s = [].
Proof.
  induction s as [|c r IH]; simpl; auto.
  intros H; apply andb_prop in H as [-> H]; auto.
Qed.

Lemma drop_while_app_all p a s :
  forallb p a = true -> drop_while p (a ++ s) = drop_while p s.
Proof.
  induction a as [|c r IH]; simpl; auto.
  intros H; apply andb_prop in H as [-> H]; auto.
Qed.

Lemma drop_while_app_keep p s b :
  drop_while p s <> [] -> drop_while p (s ++ b) = drop_while p s ++ b.
Proof.
  induction s as [|c r IH]; simpl; [congruence|].
  destruct (p c); auto.
Qed.

Lemma drop_while_fixed p c r : p c = false -> drop_while p (c :: r) = c :: r.
Proof. simpl; intros ->; reflexivity. Qed.

Lemma all_space_app a b :
  all_space (a ++ b) = (all_space a && all_space b)%bool.
Proof. apply forallb_app. Qed.

Lemma all_space_rev a : all_space (rev a) = all_space a.
Proof.
  induction a as [|c r IH]; simpl; auto.
  rewrite all_space_app, IH; simpl. rewrite andb_true_r, andb_comm; reflexivity.
Qed.

Lemma rstrip_decomp s :
  exists b, s = rstrip s ++ b /\ all_space b = true.
Proof.
  unfold rstrip. destruct (drop_while_decomp isspace (rev s)) as (a & Ha & Hp).
  exists (rev a). split.
  - rewrite <- rev_app_distr, <- Ha, rev_involutive; reflexivity.
  - rewrite all_space_rev; exact Hp.
Qed.

(** The stripped string sits inside the string, between whitespace. *)
Lemma strip_decomp s :
  exists a b, s = a ++ strip s ++ b /\ all_space a = true /\ all_space b = true.
Proof.
  destruct (drop_while_decomp isspace s) as (a & Ha & Hpa).
  destruct (rstrip_decomp (lstrip s)) as (b & Hb & Hpb).
  exists a, b. unfold strip. rewrite <- Hb. auto.
Qed.

Lemma strip_all_space s : all_space s = true -> strip s = [].
Proof.
  intros H. unfold strip, lstrip. rewrite drop_while_all; auto.
Qed.

Lemma strip_nil_iff s : strip s = [] <-> all_space s = true.
Proof.
  split; [|apply strip_all_space].
  intros H. destruct (strip_decomp s) as (a & b & Hs & Ha & Hb).
  rewrite Hs, H, !all_space_app, Ha, Hb; reflexivity.
Qed.

Lemma strip_head s c r : strip s = c :: r -> isspace c = false.
Proof.
  intros H. destruct (rstrip_decomp (lstrip s)) as (b & Hb & _).
  fold (strip s) in Hb. rewrite H in Hb.
  apply drop_while_head with (s := s) (r := r ++ b). exact Hb.
Qed.

Lemma strip_last s r c : strip s = r ++ [c] -> isspace c = false.
Proof.
  unfold strip, rstrip. intros H.
  apply (f_equal (@rev char)) in H. rewrite rev_involutive, rev_app_distr in H.
  simpl in H. eapply drop_while_head; eauto.
Qed.

(** A string that neither starts nor ends with whitespace is left as it
    is. *)
Lemma strip_fixed s :
  (forall c r, s = c :: r -> isspace c = false) ->
  (forall r c, s = r ++ [c] -> isspace c = false) ->
  strip s = s.
Proof.
  intros Hh Hl. unfold strip, lstrip.
  assert (E : drop_while isspace s = s).
  { destruct s as [|c r]; auto. apply drop_while_fixed. eapply Hh; eauto. }
  rewrite E. unfold rstrip.
  destruct (rev s) as [|c r] eqn:Er.
  - apply (f_equal (@rev char)) in Er. rewrite rev_involutive in Er. auto.
  - rewrite drop_while_fixed.
    + rewrite <- Er. apply rev_involutive.
    + apply (Hl (rev r)). apply (f_equal (@rev char)) in Er.
      rewrite rev_involutive in Er. exact Er.
Qed.

Lemma strip_idem s : strip (strip s) = strip s.
Proof.
  apply strip_fixed; intros; [eapply strip_head | eapply strip_last]; eauto.
Qed.

Lemma strip_app_space s b : all_space b = true -> strip (s ++ b) = strip s.
Proof.
  intros Hb. unfold strip, lstrip.
  destruct (drop_while isspace s) as [|c r] eqn:E.
  - destruct (drop_while_decomp isspace s) as (a & Ha & Hp).
    rewrite E, app_nil_r in Ha. subst a.
    rewrite drop_while_all; auto.
    fold (all_space (s ++ b)). rewrite all_space_app.
    unfold all_space at 1. rewrite Hp, Hb; reflexivity.
  - rewrite drop_while_app_keep by congruence. rewrite E.
    unfold rstrip. rewrite rev_app_distr, drop_while_app_all; auto.
    fold (all_space (rev b)). rewrite all_space_rev; exact Hb.
Qed.

(** A string that starts with a character that is not whitespace keeps
    it, and its head stays the head. *)
Lemma strip_cons_nonspace c r :
  isspace c = false -> exists r', strip (c :: r) = c :: r'.
Proof.
  intros Hc. unfold strip, lstrip. rewrite drop_while_fixed by exact Hc.
  destruct (rstrip_decomp (c :: r)) as (b & Hb & Hsp).
  destruct (rstrip (c :: r)) as [|c' r'] eqn:E.
  - simpl in Hb. subst b. simpl in Hsp. rewrite Hc in Hsp. discriminate.
  - injection Hb as -> _. eauto.
Qed.

(** ** Splitting and joining *)

Lemma split_nl_not_nil s : split_nl s <> [].
Proof.
  destruct s as [|c r]; simpl; [discriminate|].
  destruct (N.eqb c nl); [discriminate|].
  destruct (split_nl r); discriminate.
Qed.

Lemma join_cons sep p q ps :
  join sep (p :: q :: ps) = p ++ sep ++ join sep (q :: ps).
Proof. reflexivity. Qed.

Lemma join_split s : join [nl] (split_nl s) = s.
Proof.
  induction s as [|c r IH]; auto.
  cbn [split_nl]. destruct (split_nl r) as [|l ls] eqn:Es.
  { elim (split_nl_not_nil _ Es). }
  destruct (N.eqb c nl) eqn:E.
  - apply N.eqb_eq in E. subst c.
    rewrite join_cons, IH. reflexivity.
  - rewrite <- IH. destruct ls; reflexivity.
Qed.

Lemma split_nl_no_nl s line : In line (split_nl s) -> ~ In nl line.
Proof.
  revert line. induction s as [|c r IH]; simpl; intros line H.
  - destruct H as [<-|[]]. auto.
  - destruct (N.eqb c nl) eqn:E.
    + destruct H as [<-|H]; auto.
    + destruct (split_nl r) as [|l ls] eqn:Es.
      * elim (split_nl_not_nil _ Es).
      * destruct H as [<-|H].
        -- intros [Hc|Hc].
           ++ subst c. discriminate.
           ++ apply (IH l); simpl; auto.
        -- apply IH; simpl; auto.
Qed.

Lemma join_app sep l1 l2 :
  l1 <> [] -> l2 <> [] ->
  join sep (l1 ++ l2) = join sep l1 ++ sep ++ join sep l2.
Proof.
  intros H1 H2. induction l1 as [|p ps IH]; [congruence|].
  destruct ps as [|q ps].
  - destruct l2; [congruence|]. reflexivity.
  - change ((p :: q :: ps) ++ l2) with (p :: q :: (ps ++ l2)).
    rewrite !join_cons. change (q :: ps ++ l2) with ((q :: ps) ++ l2).
    rewrite IH by discriminate. rewrite <- !app_assoc. reflexivity.
Qed.

(** The join of a run of consecutive lines sits inside the join of all
    the lines. *)
Lemma join_run_substring sep l1 seg l2 :
  exists pre post, join sep (l1 ++ seg ++ l2) = pre ++ join sep seg ++ post.
Proof.
  destruct seg as [|p ps].
  - exists [], (join sep (l1 ++ l2)). reflexivity.
  - destruct l1 as [|a l1]; destruct l2 as [|b l2].
    + exists [], []. rewrite !app_nil_l, !app_nil_r. reflexivity.
    + exists [], (sep ++ join sep (b :: l2)).
      rewrite !app_nil_l, join_app by discriminate. reflexivity.
    + exists (join sep (a :: l1) ++ sep), [].
      rewrite !app_nil_r. rewrite join_app by discriminate.
      rewrite <- app_assoc. reflexivity.
    + exists (join sep (a :: l1) ++ sep), (sep ++ join sep (b :: l2)).
      rewrite join_app by discriminate.
      rewrite (join_app sep (p :: ps)) by discriminate.
      rewrite <- !app_assoc. reflexivity.
Qed.

Lemma all_space_join ls :
  all_space (join [nl] ls) = forallb all_space ls.
Proof.
  induction ls as [|p ps IH]; auto.
  destruct ps as [|q ps].
  - simpl. rewrite andb_true_r. reflexivity.
  - rewrite join_cons, !all_space_app, IH. simpl. reflexivity.
Qed.

(** ** The matcher *)

Lemma backtrack_inv A lo (f : nat -> option A) n r :
  backtrack lo f n = Some r -> exists k, lo <= k <= n /\ f k = Some r.
Proof.
  induction n as [|n IH]; simpl.
  - destruct (0 <? lo) eqn:E; [discriminate|].
    apply Nat.ltb_ge in E. destruct (f 0) eqn:F; [|discriminate].
    intros H; injection H as ->. exists 0; auto.
  - destruct (Nat.ltb_spec (S n) lo) as [E|E]; [discriminate|].
    destruct (f (S n)) eqn:F.
    + intros H; injection H as ->. exists (S n); auto.
    + intros H. destruct (IH H) as (k & Hk & Fk). exists k; split; [lia|auto].
Qed.

Lemma backtrack_some A lo (f : nat -> option A) n k :
  lo <= k <= n -> f k <> None -> backtrack lo f n <> None.
Proof.
  intros Hk Fk. induction n as [|n IH].
  - assert (k = 0) by lia. subst k. simpl.
    destruct (Nat.ltb_spec 0 lo); [lia|]. destruct (f 0); congruence.
  - simpl. destruct (Nat.ltb_spec (S n) lo); [lia|].
    destruct (f (S n)) eqn:F; [discriminate|].
    apply IH. destruct (Nat.eq_dec k (S n)); [congruence|lia].
Qed.

Lemma max_run_prefix k hi s n :
  n <= max_run k hi s ->
  length (firstn n s) = n /\ forallb (cmatch k) (firstn n s) = true
  /\ (forall h, hi = Some h -> n <= h).
Proof.
  revert hi n. induction s as [|c r IH]; intros hi n H.
  - assert (n = 0) by (destruct hi as [[|h]|]; simpl in H; lia). subst n.
    repeat split; auto. intros; lia.
  - destruct n as [|n]; [repeat split; auto; intros; lia|].
    destruct hi as [[|h]|]; simpl in H; try lia;
      destruct (cmatch k c) eqn:E; try lia;
      apply le_S_n in H; apply IH in H as (H1 & H2 & H3); simpl;
      rewrite H1, H2, E; repeat split; auto.
    + intros h' Hh. injection Hh as <-. specialize (H3 _ eq_refl). lia.
    + discriminate.
Qed.

Lemma max_run_ge k hi a rest :
  forallb (cmatch k) a = true ->
  (forall h, hi = Some h -> length a <= h) ->
  length a <= max_run k hi (a ++ rest).
Proof.
  revert hi. induction a as [|c r IH]; intros hi Ha Hh.
  - simpl; lia.
  - simpl in Ha. apply andb_prop in Ha as [Hc Hr].
    destruct hi as [[|h]|]; simpl.
    + specialize (Hh _ eq_refl). simpl in Hh. lia.
    + rewrite Hc. apply le_n_S, IH; auto.
      intros h' E. injection E as <-. specialize (Hh _ eq_refl). simpl in Hh. lia.
    + rewrite Hc. apply le_n_S, IH; auto. discriminate.
Qed.

Lemma all_hash_repeat s :
  forallb (cmatch CHash) s = true -> s = repeat hash (length s).
Proof.
  induction s as [|c r IH]; simpl; auto.
  intros H. apply andb_prop in H as [Hc Hr]. apply N.eqb_eq in Hc.
  subst c. f_equal. auto.
Qed.

Lemma forallb_repeat_hash n : forallb (cmatch CHash) (repeat hash n) = true.
Proof. induction n; simpl; auto. Qed.

Lemma leading_hashes_repeat n rest :
  (forall c r, rest = c :: r -> is_hash c = false) ->
  leading_hashes (repeat hash n ++ rest) = n.
Proof.
  intros H. unfold leading_hashes. induction n as [|n IH]; simpl.
  - destruct rest as [|c r]; auto. simpl. rewrite (H c r); auto.
  - rewrite IH. reflexivity.
Qed.

Lemma space_not_hash c : isspace c = true -> is_hash c = false.
Proof.
  intros H. unfold is_hash. destruct (N.eqb_spec c hash); auto.
  subst c. discriminate.
Qed.

(** What a match of the three items means for the line (the pattern is
    unfolded one item at a time). *)
Lemma header_match_sound line g1 g2 :
  header_match line = Some (g1, g2) ->
  exists k ws tl,
    1 <= k <= 5 /\ g1 = repeat hash k /\
    ws <> [] /\ all_space ws = true /\
    g2 <> [] /\ ~ In nl g2 /\ at_end tl = true /\
    line = g1 ++ ws ++ g2 ++ tl.
Proof.
  unfold header_match, header_re. cbn [match_items rmin cls rmax capture].
  destruct (backtrack 1 _ _) as [gs|] eqn:B1; [|discriminate].
  intros Hgs.
  apply backtrack_inv in B1 as (k1 & Hk1 & F1).
  destruct (backtrack 1 _ (max_run CSpace None (skipn k1 line)))
    as [gs2|] eqn:B2; [|discriminate].
  injection F1 as <-.
  apply backtrack_inv in B2 as (k2 & Hk2 & F2).
  set (s1 := skipn k1 line) in *.
  destruct (backtrack 1 _ (max_run CDot None (skipn k2 s1)))
    as [gs3|] eqn:B3; [|discriminate].
  injection F2 as <-.
  apply backtrack_inv in B3 as (k3 & Hk3 & F3).
  set (s2 := skipn k2 s1) in *.
  destruct (at_end (skipn k3 s2)) eqn:E; [|discriminate].
  injection F3 as <-. injection Hgs as <- <-.
  destruct Hk1 as [L1 U1], Hk2 as [L2 U2], Hk3 as [L3 U3].
  apply max_run_prefix in U1 as (A1 & B1 & C1).
  apply max_run_prefix in U2 as (A2 & B2 & C2).
  apply max_run_prefix in U3 as (A3 & B3 & C3).
  exists k1, (firstn k2 s1), (skipn k3 s2).
  specialize (C1 _ eq_refl).
  repeat split; auto.
  - rewrite <- A1 at 2. apply all_hash_repeat; auto.
  - intros H. rewrite H in A2. simpl in A2. lia.
  - intros H. rewrite H in A3. simpl in A3. lia.
  - intros H. rewrite forallb_forall in B3. apply B3 in H. discriminate.
  - unfold s2, s1. rewrite !firstn_skipn. reflexivity.
Qed.

(** On a line of the document (no newline inside) the match is the whole
    line, and the level is the number of leading [#]. *)
Lemma header_match_line line g1 g2 :
  ~ In nl line ->
  header_match line = Some (g1, g2) ->
  exists ws,
    1 <= length g1 <= 5 /\ g1 = repeat hash (length g1) /\
    length g1 = leading_hashes line /\
    ws <> [] /\ all_space ws = true /\ g2 <> [] /\
    line = g1 ++ ws ++ g2.
Proof.
  intros Hnl H.
  apply header_match_sound in H
    as (k & ws & tl & Hk & Hg1 & Hws & Hsp & Hg2 & _ & Hend & Hline).
  assert (tl = []) as ->.
  { destruct tl as [|c [|d tl]]; auto; simpl in Hend; [|discriminate].
    apply N.eqb_eq in Hend. subst c. exfalso. apply Hnl. rewrite Hline.
    rewrite !in_app_iff. simpl. auto. }
  rewrite app_nil_r in Hline.
  assert (Hlen : length g1 = k) by (rewrite Hg1; apply repeat_length).
  exists ws. rewrite Hlen. repeat split; auto; try lia.
  rewrite Hline, Hg1. symmetry. apply leading_hashes_repeat.
  intros c r E. destruct ws as [|w ws']; [congruence|].
  simpl in E. injection E as <- _. simpl in Hsp.
  apply andb_prop in Hsp as [Hw _]. apply space_not_hash; auto.
Qed.

Lemma match_items_cons_some it rest s n :
  rmin it <= n <= max_run (cls it) (rmax it) s ->
  match_items rest (skipn n s) <> None ->
  match_items (it :: rest) s <> None.
Proof.
  intros Hn H. cbn [match_items].
  apply backtrack_some with (k := n); auto.
  destruct (match_items rest (skipn n s)); congruence.
Qed.

Lemma match_items_groups items s gs :
  match_items items s = Some gs ->
  length gs = length (filter capture items).
Proof.
  revert s gs. induction items as [|it rest IH]; intros s gs; cbn [match_items].
  - destruct (at_end s); [|discriminate]. intros H; injection H as <-. auto.
  - intros H. apply backtrack_inv in H as (n & _ & H).
    destruct (match_items rest (skipn n s)) as [gs'|] eqn:E; [|discriminate].
    apply IH in E. injection H as <-. simpl.
    destruct (capture it); simpl; congruence.
Qed.

(** Every line of that shape matches. *)
Lemma header_match_complete k ws rest :
  1 <= k <= 5 -> ws <> [] -> all_space ws = true -> rest <> [] ->
  ~ In nl rest ->
  header_match (repeat hash k ++ ws ++ rest) <> None.
Proof.
  intros Hk Hws Hsp Hrest Hnl.
  assert (M : match_items header_re (repeat hash k ++ ws ++ rest) <> None).
  { unfold header_re. apply match_items_cons_some with (n := k).
    { cbn [rmin cls rmax]. split; [lia|]. rewrite <- (repeat_length hash k) at 1.
      apply max_run_ge.
      - apply forallb_repeat_hash.
      - intros h E. injection E as <-. rewrite repeat_length. lia. }
    rewrite skipn_app, repeat_length, Nat.sub_diag, skipn_all2
      by (rewrite repeat_length; lia).
    cbn [skipn app].
    apply match_items_cons_some with (n := length ws).
    { cbn [rmin cls rmax]. split.
      - destruct ws; [congruence|simpl; lia].
      - apply max_run_ge; auto. discriminate. }
    rewrite skipn_app, Nat.sub_diag, skipn_all. cbn [skipn app].
    apply match_items_cons_some with (n := length rest).
    { cbn [rmin cls rmax]. split.
      - destruct rest; [congruence|simpl; lia].
      - rewrite <- (app_nil_r rest) at 2. apply max_run_ge.
        + apply forallb_forall. intros c Hc. simpl.
          destruct (N.eqb_spec c nl); auto. subst c. contradiction.
        + discriminate. }
    rewrite skipn_all. simpl. discriminate. }
  unfold header_match.
  destruct (match_items header_re _) as [gs|] eqn:E; [|congruence].
  apply match_items_groups in E. simpl in E.
  destruct gs as [|g1 [|g2 [|g3 gs]]]; simpl in E; try discriminate.
Qed.

(** ** The hierarchy update *)

(** The five possible levels, one goal each. *)
Ltac level_cases L :=
  let C := fresh "C" in
  assert (C : L = 1 \/ L = 2 \/ L = 3 \/ L = 4 \/ L = 5) by lia;
  destruct C as [->|[->|[->|[->| ->]]]].

(** With five slots and a level from 1 to 5 no index is out of range:
    the slots above the level are kept, the slot of the level is set and
    the deeper ones are emptied. *)
Lemma update_headers_spec hs level t :
  length hs = 5 -> 1 <= level <= 5 ->
  update_headers hs level t
  = Some (firstn (level - 1) hs ++ t :: repeat [] (5 - level)).
Proof.
  intros Hlen Hl.
  destruct hs as [|h1 [|h2 [|h3 [|h4 [|h5 [|h6 hs]]]]]]; try discriminate.
  level_cases level; reflexivity.
Qed.

Lemma hierarchy_length (hs : list str) level t :
  length hs = 5 -> 1 <= level <= 5 ->
  length (firstn (level - 1) hs ++ t :: repeat [] (5 - level)) = 5.
Proof.
  intros Hlen Hl.
  destruct hs as [|h1 [|h2 [|h3 [|h4 [|h5 [|h6 hs]]]]]]; try discriminate.
  level_cases level; reflexivity.
Qed.

(** ** One step of the loop *)

Section Loop.

Variable src : str.

Lemma flush_current_chunk st : current_chunk (flush src st) = [].
Proof.
  unfold flush. destruct (current_chunk st) eqn:E; auto.
  destruct (make_chunk src st); reflexivity.
Qed.

Lemma flush_current_headers st :
  current_headers (flush src st) = current_headers st.
Proof.
  unfold flush. destruct (current_chunk st); auto.
  destruct (make_chunk src st); reflexivity.
Qed.

Lemma header_match_level line g1 g2 :
  header_match line = Some (g1, g2) -> 1 <= length g1 <= 5.
Proof.
  intros H. apply header_match_sound in H as (k & ws & tl & Hk & -> & _).
  rewrite repeat_length. exact Hk.
Qed.

Lemma step_plain st line :
  header_match line = None ->
  step src st line
  = Some (mkState (chunks st) (current_chunk st ++ [line])
                  (current_headers st) (chunk_id st)).
Proof. unfold step. intros ->. reflexivity. Qed.

Lemma step_header st line g1 g2 :
  header_match line = Some (g1, g2) ->
  length (current_headers st) = 5 ->
  step src st line
  = Some (mkState (chunks (flush src st)) [line]
            (firstn (length g1 - 1) (current_headers st)
               ++ strip g2 :: repeat [] (5 - length g1))
            (chunk_id (flush src st))).
Proof.
  intros H Hlen. unfold step. rewrite H.
  rewrite flush_current_headers, flush_current_chunk.
  rewrite update_headers_spec; auto.
  eapply header_match_level; eauto.
Qed.

Lemma step_headers_length st line st' :
  length (current_headers st) = 5 ->
  step src st line = Some st' -> length (current_headers st') = 5.
Proof.
  intros Hlen. destruct (header_match line) as [[g1 g2]|] eqn:E.
  - rewrite (step_header st line g1 g2 E Hlen). intros H; injection H as <-.
    apply hierarchy_length; auto. eapply header_match_level; eauto.
  - rewrite step_plain by assumption. intros H; injection H as <-. auto.
Qed.

Lemma step_total st line :
  length (current_headers st) = 5 -> exists st', step src st line = Some st'.
Proof.
  intros Hlen. destruct (header_match line) as [[g1 g2]|] eqn:E.
  - rewrite (step_header st line g1 g2 E Hlen). eauto.
  - rewrite step_plain by assumption. eauto.
Qed.

(** ** The loop *)

Lemma run_app st l1 l2 :
  run src st (l1 ++ l2)
  = match run src st l1 with
    | Some st' => run src st' l2
    | None => None
    end.
Proof.
  revert st. induction l1 as [|x l1 IH]; intros st; simpl; auto.
  destruct (step src st x); auto.
Qed.

Lemma run_snoc st l x :
  run src st (l ++ [x])
  = match run src st l with
    | Some st' => step src st' x
    | None => None
    end.
Proof.
  rewrite run_app. destruct (run src st l) as [st'|]; auto.
  simpl. destruct (step src st' x); auto.
Qed.

(** The loop never raises: the hierarchy keeps its five slots. *)
Lemma run_total lines st :
  length (current_headers st) = 5 ->
  exists st', run src st lines = Some st' /\ length (current_headers st') = 5.
Proof.
  revert st. induction lines as [|x lines IH]; intros st Hlen; simpl; eauto.
  destruct (step_total st x Hlen) as (st1 & H1). rewrite H1.
  apply IH. eapply step_headers_length; eauto.
Qed.

(** Lines that are not headers only grow the accumulator. *)
Lemma run_plain st lines :
  (forall l, In l lines -> header_match l = None) ->
  run src st lines
  = Some (mkState (chunks st) (current_chunk st ++ lines)
                  (current_headers st) (chunk_id st)).
Proof.
  revert st. induction lines as [|x lines IH]; intros st H; simpl.
  - rewrite app_nil_r. destruct st; reflexivity.
  - rewrite step_plain by (apply H; simpl; auto).
    rewrite IH by (intros; apply H; simpl; auto). simpl.
    rewrite <- app_assoc. reflexivity.
Qed.

Lemma step_chunks_extend st line st' :
  step src st line = Some st' -> exists more, chunks st' = chunks st ++ more.
Proof.
  unfold step. destruct (header_match line) as [[g1 g2]|].
  - destruct (update_headers _ _ _); [|discriminate].
    intros H; injection H as <-. simpl. unfold flush.
    destruct (current_chunk st); [exists []; rewrite app_nil_r; auto|].
    destruct (make_chunk src st); simpl; eauto.
    exists []; rewrite app_nil_r; auto.
  - intros H; injection H as <-. exists []; rewrite app_nil_r; auto.
Qed.

Lemma run_chunks_extend lines st st' :
  run src st lines = Some st' -> exists more, chunks st' = chunks st ++ more.
Proof.
  revert st. induction lines as [|x lines IH]; intros st; simpl.
  - intros H; injection H as <-. exists []; rewrite app_nil_r; auto.
  - destruct (step src st x) as [st1|] eqn:E; [|discriminate].
    intros H. apply IH in H as (m2 & H2).
    apply step_chunks_extend in E as (m1 & H1).
    exists (m1 ++ m2). rewrite H2, H1, app_assoc. reflexivity.
Qed.

Lemma finish_chunks_extend st :
  exists more, finish src st = chunks st ++ more.
Proof.
  unfold finish. destruct (current_chunk st).
  - exists []; rewrite app_nil_r; auto.
  - destruct (make_chunk src st); eauto. exists []; rewrite app_nil_r; auto.
Qed.

Lemma chunk_markdown_run content :
  exists st,
    run src init (split_nl content) = Some st /\
    length (current_headers st) = 5 /\
    chunk_markdown content src = Some (finish src st).
Proof.
  destruct (run_total (split_nl content) init eq_refl) as (st & H & Hlen).
  exists st. unfold chunk_markdown. rewrite H. auto.
Qed.

(** ** Flushing *)

Lemma make_chunk_some st c :
  make_chunk src st = Some c ->
  id c = format_id src (chunk_id st) /\ source c = src /\
  headers c = active_headers (current_headers st) /\
  text c = strip (join [nl] (current_chunk st)) /\ text c <> [].
Proof.
  unfold make_chunk.
  destruct (strip (join [nl] (current_chunk st))) as [|a t] eqn:E;
    [discriminate|].
  intros H; injection H as <-. simpl. repeat split; auto. discriminate.
Qed.

Lemma make_chunk_none st :
  make_chunk src st = None -> forallb all_space (current_chunk st) = true.
Proof.
  unfold make_chunk.
  destruct (strip (join [nl] (current_chunk st))) eqn:E; [|discriminate].
  intros _. rewrite <- all_space_join. apply strip_nil_iff; auto.
Qed.

Lemma make_chunk_nil st : current_chunk st = [] -> make_chunk src st = None.
Proof. unfold make_chunk. intros ->. reflexivity. Qed.

Lemma flush_eq st :
  flush src st
  = match make_chunk src st with
    | Some c => mkState (chunks st ++ [c]) [] (current_headers st)
                        (S (chunk_id st))
    | None => mkState (chunks st) [] (current_headers st) (chunk_id st)
    end.
Proof.
  unfold flush. destruct (current_chunk st) eqn:E; auto.
  rewrite make_chunk_nil by assumption. destruct st; simpl in *; congruence.
Qed.

Lemma finish_eq st :
  finish src st
  = match make_chunk src st with
    | Some c => chunks st ++ [c]
    | None => chunks st
    end.
Proof.
  unfold finish. destruct (current_chunk st) eqn:E; auto.
  rewrite make_chunk_nil by assumption. reflexivity.
Qed.

(** ** The invariant of the loop *)

Lemma chunk_from_snoc lines i c l1 seg l2 x :
  chunk_from src lines i c l1 seg l2 ->
  chunk_from src (lines ++ [x]) i c l1 seg (l2 ++ [x]).
Proof.
  intros (H & Hrest). split; auto.
  rewrite H, <- !app_assoc. reflexivity.
Qed.

Lemma Inv_init : Inv src [] init.
Proof.
  unfold Inv; simpl. repeat split; auto.
  - exists []; auto.
  - intros [|i] c; discriminate.
Qed.

Lemma Inv_step lines st x :
  Inv src lines st -> exists st', Inv src (lines ++ [x]) st'.
Proof.
  intros (Hrun & Hlen & Hid & (p & Hp & Hsp) & Hch).
  destruct (step_total st x Hlen) as (st' & Hstep).
  exists st'. unfold Inv. rewrite run_snoc, Hrun.
  split; [exact Hstep|]. split; [eapply step_headers_length; eauto|].
  destruct (header_match x) as [[g1 g2]|] eqn:E.
  - rewrite (step_header st x g1 g2 E Hlen) in Hstep.
    injection Hstep as <-. cbn [chunks current_chunk chunk_id].
    rewrite flush_eq. destruct (make_chunk src st) as [c|] eqn:M;
      cbn [chunks chunk_id].
    + apply make_chunk_some in M as (Mid & Msrc & Mh & Mt & Mne).
      split; [rewrite length_app; simpl; lia|]. split.
      * exists lines. split; auto. intros H. destruct (chunks st); discriminate.
      * intros i c' Hn.
        destruct (Nat.lt_ge_cases i (length (chunks st))) as [Hi|Hi].
        -- rewrite nth_error_app1 in Hn by assumption.
           destruct (Hch i c' Hn) as (l1 & seg & h & r & Hf & Hh).
           exists l1, seg, h, (r ++ [x]). split; auto.
           apply chunk_from_snoc with (x := x) in Hf. exact Hf.
        -- rewrite nth_error_app2 in Hn by assumption.
           destruct (i - length (chunks st)) as [|j] eqn:Ej;
             [|destruct j; discriminate].
           injection Hn as <-. assert (i = chunk_id st) as -> by lia.
           exists p, (current_chunk st), x, []. split; [|congruence].
           unfold chunk_from.
           split; [rewrite app_assoc, <- Hp; reflexivity|].
           do 4 (split; [assumption|]).
           exists st. rewrite <- Hp. auto.
    + apply make_chunk_none in M.
      split; [exact Hid|]. split.
      * exists lines. split; auto. intros H.
        rewrite Hp, forallb_app, Hsp, M; auto.
      * intros i c' Hn.
        destruct (Hch i c' Hn) as (l1 & seg & h & r & Hf & Hh).
        exists l1, seg, h, (r ++ [x]). split; auto.
        apply chunk_from_snoc with (x := x) in Hf. exact Hf.
  - rewrite step_plain in Hstep by assumption. injection Hstep as <-.
    cbn [chunks current_chunk chunk_id]. split; [exact Hid|]. split.
    + exists p. rewrite Hp at 1. rewrite <- app_assoc. auto.
    + intros i c' Hn.
      destruct (Hch i c' Hn) as (l1 & seg & h & r & Hf & Hh).
      exists l1, seg, h, (r ++ [x]). split; auto.
      apply chunk_from_snoc with (x := x) in Hf. exact Hf.
Qed.

Lemma Inv_run lines : exists st, Inv src lines st.
Proof.
  induction lines as [|x lines IH] using rev_ind.
  - exists init. apply Inv_init.
  - destruct IH as (st & H). eapply Inv_step; eauto.
Qed.

End Loop.

(** ** The returned chunks *)

(** [chunk_markdown] returns, and every chunk it returns comes from a run
    of consecutive lines that stops at a boundary. *)
Lemma chunk_markdown_chunks content src :
  exists cs,
    chunk_markdown content src = Some cs /\
    (forall i c, nth_error cs i = Some c ->
       exists l1 seg l2,
         chunk_from src (split_nl content) i c l1 seg l2 /\ boundary l2) /\
    (cs = [] -> forallb all_space (split_nl content) = true).
Proof.
  destruct (Inv_run src (split_nl content))
    as (st & Hrun & Hlen & Hid & (p & Hp & Hsp) & Hch).
  exists (finish src st). unfold chunk_markdown. rewrite Hrun.
  split; [reflexivity|]. rewrite finish_eq.
  destruct (make_chunk src st) as [c|] eqn:M.
  - apply make_chunk_some in M as (Mid & Msrc & Mh & Mt & Mne). split.
    + intros i c' Hn.
      destruct (Nat.lt_ge_cases i (length (chunks st))) as [Hi|Hi].
      * rewrite nth_error_app1 in Hn by assumption.
        destruct (Hch i c' Hn) as (l1 & seg & h & r & Hf & Hh).
        exists l1, seg, (h :: r). auto.
      * rewrite nth_error_app2 in Hn by assumption.
        destruct (i - length (chunks st)) as [|j] eqn:Ej;
          [|destruct j; discriminate].
        injection Hn as <-. assert (i = chunk_id st) as -> by lia.
        exists p, (current_chunk st), []. split; [|exact I].
        unfold chunk_from.
        split; [rewrite app_nil_r; exact Hp|].
        do 4 (split; [assumption|]).
        exists st. rewrite <- Hp. auto.
    + intros H. destruct (chunks st); discriminate.
  - apply make_chunk_none in M. split.
    + intros i c' Hn.
      destruct (Hch i c' Hn) as (l1 & seg & h & r & Hf & Hh).
      exists l1, seg, (h :: r). auto.
    + intros H. rewrite Hp, forallb_app, Hsp, M; auto.
Qed.

(** ** Chunk identifiers *)

Lemma of_string_inj s t : of_string s = of_string t -> s = t.
Proof.
  revert t. induction s as [|a s IH]; intros [|b t]; simpl; try discriminate.
  - reflexivity.
  - intros H. injection H as Hab Hst. f_equal; auto.
    rewrite <- (ascii_N_embedding a), <- (ascii_N_embedding b), Hab.
    reflexivity.
Qed.

Lemma decimal_inj n m : decimal n = decimal m -> n = m.
Proof.
  unfold decimal. intros H. apply of_string_inj in H.
  apply (f_equal NilEmpty.uint_of_string) in H.
  rewrite !NilEmpty.usu in H. injection H as H.
  rewrite <- (DecimalNat.Unsigned.of_to n), <- (DecimalNat.Unsigned.of_to m).
  congruence.
Qed.

Lemma format_id_inj src : Injective (format_id src).
Proof.
  intros n m H. unfold format_id in H.
  apply app_inv_head in H. apply app_inv_head in H.
  apply decimal_inj; auto.
Qed.

Lemma map_by_index (f : nat -> str) cs k :
  (forall i c, nth_error cs i = Some c -> id c = f (k + i)) ->
  map id cs = map f (seq k (length cs)).
Proof.
  revert k. induction cs as [|c cs IH]; intros k H; simpl; auto.
  f_equal.
  - rewrite (H 0 c eq_refl). f_equal. lia.
  - apply IH. intros i c' Hn. rewrite (H (S i) c' Hn). f_equal. lia.
Qed.

(** C3: the ids of the returned chunks are [source_0], [source_1], ... in
    return order without gaps (the chunk at index [i] has the id made of
    the source, an underscore and the decimal numeral of [i]), and they
    are pairwise distinct. *)
Theorem chunk_ids_sequential content src :
  exists cs,
    chunk_markdown content src = Some cs /\
    (forall i c, nth_error cs i = Some c ->
       id c = src ++ of_string "_" ++ decimal i) /\
    map id cs = map (format_id src) (seq 0 (length cs)) /\
    NoDup (map id cs).
Proof.
  destruct (chunk_markdown_chunks content src) as (cs & Hcs & Hch & _).
  exists cs. split; [exact Hcs|].
  assert (Hid : forall i c, nth_error cs i = Some c -> id c = format_id src i).
  { intros i c Hn. destruct (Hch i c Hn) as (l1 & seg & l2 & Hf & _).
    apply Hf. }
  assert (Hmap : map id cs = map (format_id src) (seq 0 (length cs))).
  { apply map_by_index. exact Hid. }
  repeat split; auto.
  rewrite Hmap. apply Injective_map_NoDup.
  - apply format_id_inj.
  - apply seq_NoDup.
Qed.

(** ** Chunk texts *)

Lemma strip_trimmed s : trimmed (strip s).
Proof.
  split; intros; [eapply strip_head | eapply strip_last]; eauto.
Qed.

(** C10: every returned chunk has a text that is not empty, that neither
    starts nor ends with whitespace, that is a contiguous part of the
    content, and that is the stripped newline-join of a run of consecutive
    lines of the content. *)
Theorem chunk_text_nonempty_trimmed_substring content src :
  exists cs,
    chunk_markdown content src = Some cs /\
    forall c, In c cs ->
      text c <> [] /\ trimmed (text c) /\ all_space (text c) = false /\
      (exists pre post, content = pre ++ text c ++ post) /\
      (exists l1 seg l2,
         split_nl content = l1 ++ seg ++ l2 /\
         text c = strip (join [nl] seg)).
Proof.
  destruct (chunk_markdown_chunks content src) as (cs & Hcs & Hch & _).
  exists cs. split; [exact Hcs|]. intros c Hin.
  apply In_nth_error in Hin as (i & Hn).
  destruct (Hch i c Hn) as (l1 & seg & l2 & Hf & _).
  destruct Hf as (Hl & _ & _ & Ht & Hne & _).
  split; [exact Hne|]. split; [rewrite Ht; apply strip_trimmed|]. split.
  { destruct (all_space (text c)) eqn:E; auto.
    apply strip_all_space in E. rewrite Ht, strip_idem in E.
    rewrite Ht in Hne. contradiction. }
  split.
  - destruct (join_run_substring [nl] l1 seg l2) as (pre & post & Hj).
    destruct (strip_decomp (join [nl] seg)) as (a & b & Hs & _).
    exists (pre ++ a), (b ++ post).
    rewrite <- (join_split content), Hl, Hj, Hs at 1.
    rewrite Ht, <- !app_assoc. reflexivity.
  - exists l1, seg, l2. auto.
Qed.

(** ** Header lines *)

Lemma header_starts_hash line g1 g2 :
  header_match line = Some (g1, g2) -> exists r, line = hash :: r.
Proof.
  intros H. apply header_match_sound in H
    as (k & ws & tl & Hk & -> & _ & _ & _ & _ & _ & ->).
  destruct k as [|k]; [lia|]. simpl. eauto.
Qed.

Lemma all_space_not_header line :
  all_space line = true -> header_match line = None.
Proof.
  intros H. destruct (header_match line) as [[g1 g2]|] eqn:E; auto.
  apply header_starts_hash in E as (r & ->). simpl in H. discriminate.
Qed.

Lemma header_strip_nonempty line g1 g2 :
  header_match line = Some (g1, g2) -> exists r, strip line = hash :: r.
Proof.
  intros H. apply header_starts_hash in H as (r & ->).
  apply strip_cons_nonspace. apply isspace_hash.
Qed.

(** C1: when a header line of level L is met, slot L of the five slots
    takes the trimmed header text and all slots of the levels L+1 to 5
    are emptied, whatever they held and whatever the new text is (the
    slots above L are kept); and in the scenario
    [# H1 / ## H2 / ### H3 / X / ## H2b / Y] the chunk that contains [Y]
    has the headers [H1; H2b], without [H3]. *)
Theorem header_resets_deeper_levels :
  (forall src pre line g1 g2,
     header_match line = Some (g1, g2) ->
     exists st st',
       run src init pre = Some st /\
       run src init (pre ++ [line]) = Some st' /\
       1 <= length g1 <= 5 /\
       length (current_headers st) = 5 /\
       length (current_headers st') = 5 /\
       nth (length g1 - 1) (current_headers st') [] = strip g2 /\
       (forall j, length g1 <= j < 5 -> nth j (current_headers st') [] = []) /\
       (forall j, j < length g1 - 1 ->
          nth j (current_headers st') [] = nth j (current_headers st) []))
  /\
  (forall src,
     exists c0 c1 c2 c3,
       chunk_markdown doc_reset src = Some [c0; c1; c2; c3] /\
       text c3 = of_string "## H2b" ++ [nl; nl] ++ of_string "Y" /\
       headers c3 = [of_string "H1"; of_string "H2b"] /\
       ~ In (of_string "H3") (headers c3) /\
       Forall (fun c => ~ In 89%N (text c)) [c0; c1; c2]).
Proof.
  split.
  - intros src pre line g1 g2 H.
    destruct (run_total src pre init eq_refl) as (st & Hrun & Hlen).
    pose proof (header_match_level line g1 g2 H) as HL.
    exists st. eexists. rewrite run_snoc, Hrun.
    split; [reflexivity|].
    split; [apply (step_header src st line g1 g2 H Hlen)|].
    cbn [current_headers]. split; [exact HL|]. split; [exact Hlen|].
    split; [apply hierarchy_length; auto|].
    remember (strip g2) as t. remember (length g1) as L.
    destruct (current_headers st)
      as [|h1 [|h2 [|h3 [|h4 [|h5 [|h6 hs]]]]]]; try discriminate.
    level_cases L; simpl;
      (split; [reflexivity|]); split; intros j Hj;
      repeat (destruct j as [|j]; try lia; try reflexivity).
  - intros src. do 4 eexists. split; [vm_compute; reflexivity|].
    simpl. repeat split.
    + intros [H|[H|[]]]; discriminate.
    + repeat constructor; simpl; intros H;
        repeat (destruct H as [H|H]; [discriminate|]); exact H.
Qed.

(** The reset at a concrete header: in the scenario above, at the line
    [## H2b] met after [### H3]. *)
Lemma header_resets_deeper_levels_witness :
  exists st st',
    run (of_string "doc") init
        (map of_string ["# H1"; "## H2"; "### H3"]) = Some st /\
    run (of_string "doc") init
        (map of_string ["# H1"; "## H2"; "### H3"]
                   ++ [of_string "## H2b"]) = Some st' /\
    1 <= 2 <= 5 /\
    length (current_headers st) = 5 /\
    length (current_headers st') = 5 /\
    nth 1 (current_headers st') [] = of_string "H2b" /\
    (forall j, 2 <= j < 5 -> nth j (current_headers st') [] = []) /\
    (forall j, j < 1 -> nth j (current_headers st') [] = nth j (current_headers st) []).
Proof.
  exact (proj1 header_resets_deeper_levels (of_string "doc")
           (map of_string ["# H1"; "## H2"; "### H3"])
           (of_string "## H2b") (of_string "##") (of_string "H2b") eq_refl).
Defined.

(** ** Headers of the chunks *)

Lemma make_chunk_all_space src st :
  forallb all_space (current_chunk st) = true -> make_chunk src st = None.
Proof.
  intros H. unfold make_chunk. rewrite strip_all_space; auto.
  rewrite all_space_join. exact H.
Qed.

Lemma make_chunk_text src st a t :
  strip (join [nl] (current_chunk st)) = a :: t ->
  make_chunk src st
  = Some (mkChunk (format_id src (chunk_id st)) src
                  (active_headers (current_headers st)) (a :: t)).
Proof. unfold make_chunk. intros ->. reflexivity. Qed.

Lemma join_cons_head sep p ps :
  exists r, join sep (p :: ps) = p ++ r.
Proof.
  destruct ps as [|q ps].
  - exists []. simpl. rewrite app_nil_r. reflexivity.
  - exists (sep ++ join sep (q :: ps)). reflexivity.
Qed.

(** A hierarchy with one header only. *)
Lemma single_header_active level t :
  1 <= level <= 5 -> t <> [] ->
  active_headers
    (firstn (level - 1) (current_headers init) ++ t :: repeat [] (5 - level))
  = [t].
Proof.
  intros Hl Ht. destruct t as [|a t]; [congruence|].
  level_cases level; reflexivity.
Qed.




(** ** The header test *)

Lemma header_match_six line :
  6 <= leading_hashes line -> ~ In nl line -> header_match line = None.
Proof.
  intros H6 Hnl. destruct (header_match line) as [[g1 g2]|] eqn:E; auto.
  apply header_match_line in E as (ws & Hk & _ & Hlev & _); auto. lia.
Qed.



(** ** Lines of [#] and whitespace only *)

Lemma repeat_hash_no_nl k : ~ In nl (repeat hash k).
Proof. intros H. apply repeat_spec in H. discriminate. Qed.

Lemma header_match_blank_text k ws :
  1 <= k <= 5 -> all_space ws = true -> 2 <= length ws -> ~ In nl ws ->
  exists g2,
    header_match (repeat hash k ++ ws) = Some (repeat hash k, g2) /\
    strip g2 = [].
Proof.
  intros Hk Hsp Hlen Hnl.
  assert (Hne : ws <> []) by (destruct ws; simpl in Hlen; [lia|discriminate]).
  destruct (exists_last Hne) as (ws' & w & Hw).
  assert (Hnl' : ~ In nl (repeat hash k ++ ws)).
  { rewrite in_app_iff. intros [H|H]; [eapply repeat_hash_no_nl|]; eauto. }
  assert (M : header_match (repeat hash k ++ ws) <> None).
  { rewrite Hw. apply header_match_complete; auto.
    - intros ->. rewrite Hw in Hlen. simpl in Hlen. lia.
    - rewrite Hw, all_space_app in Hsp. apply andb_prop in Hsp. tauto.
    - discriminate.
    - intros Hc. apply Hnl. rewrite Hw, in_app_iff. auto. }
  destruct (header_match (repeat hash k ++ ws)) as [[g1 g2]|] eqn:E;
    [|congruence].
  apply header_match_line in E
    as (ws1 & _ & Hg1 & Hlev & _ & _ & _ & Hl); auto.
  rewrite leading_hashes_repeat in Hlev.
  2:{ intros c r Ec. apply space_not_hash. rewrite Ec in Hsp. simpl in Hsp.
      apply andb_prop in Hsp. tauto. }
  rewrite Hlev in Hg1. subst g1. apply app_inv_head in Hl.
  exists g2. split; [reflexivity|]. apply strip_all_space.
  rewrite Hl, all_space_app in Hsp. apply andb_prop in Hsp. tauto.
Qed.

(** C5 (amended): a line of 1 to 5 [#] followed by exactly one whitespace
    character and nothing else is not a header line: it joins the
    accumulator, without flush and without change of the hierarchy.
    Followed by two or more whitespace characters, it is a header line of
    that level with an empty text: the accumulator is flushed, and the
    slot of the level and the deeper ones are emptied. *)
Theorem hash_whitespace_line k :
  1 <= k <= 5 ->
  (forall w src st,
     isspace w = true ->
     header_match (repeat hash k ++ [w]) = None /\
     step src st (repeat hash k ++ [w])
     = Some (mkState (chunks st) (current_chunk st ++ [repeat hash k ++ [w]])
                     (current_headers st) (chunk_id st)))
  /\
  (forall ws src st,
     all_space ws = true -> 2 <= length ws -> ~ In nl ws ->
     length (current_headers st) = 5 ->
     exists g2,
       header_match (repeat hash k ++ ws) = Some (repeat hash k, g2) /\
       strip g2 = [] /\
       step src st (repeat hash k ++ ws)
       = Some (mkState (chunks (flush src st)) [repeat hash k ++ ws]
                 (firstn (k - 1) (current_headers st)
                    ++ [] :: repeat [] (5 - k))
                 (chunk_id (flush src st)))).
Proof.
  intros Hk. split.
  - intros w src st Hw.
    assert (E : header_match (repeat hash k ++ [w]) = None).
    { destruct (header_match (repeat hash k ++ [w])) as [[g1 g2]|] eqn:E; auto.
      apply header_match_sound in E
        as (k' & ws & tl & Hk' & Hg1 & Hws & Hsp & Hg2 & _ & _ & Hl).
      assert (Hlev : leading_hashes (repeat hash k ++ [w]) = k).
      { apply leading_hashes_repeat. intros c r Ec. injection Ec as <- _.
        apply space_not_hash; auto. }
      assert (Hlev' : leading_hashes (repeat hash k ++ [w]) = k').
      { rewrite Hl, Hg1. apply leading_hashes_repeat. intros c r Ec.
        destruct ws as [|w' ws']; [congruence|]. simpl in Ec.
        injection Ec as <- _. simpl in Hsp. apply andb_prop in Hsp.
        apply space_not_hash; tauto. }
      assert (k' = k) by congruence. clear Hlev Hlev'. subst k' g1.
      apply app_inv_head in Hl. apply (f_equal (@length char)) in Hl.
      rewrite !length_app in Hl. simpl in Hl.
      destruct ws; [congruence|]. destruct g2; [congruence|].
      simpl in Hl. lia. }
    split; [exact E|]. apply step_plain; exact E.
  - intros ws src st Hsp Hlen Hnl Hst.
    destruct (header_match_blank_text k ws Hk Hsp Hlen Hnl) as (g2 & E & Hs).
    exists g2. split; [exact E|]. split; [exact Hs|].
    rewrite (step_header src st _ _ _ E Hst), Hs, repeat_length.
    reflexivity.
Qed.

(** The two cases at [##] followed by one space, and by a space and a
    tab, in the initial state. *)
Lemma hash_whitespace_line_witness :
  (header_match (repeat hash 2 ++ [32%N]) = None /\
   step (of_string "doc") init (repeat hash 2 ++ [32%N])
   = Some (mkState [] [repeat hash 2 ++ [32%N]] (current_headers init) 0))
  /\
  (exists g2,
     header_match (repeat hash 2 ++ [32%N; 9%N])
     = Some (repeat hash 2, g2) /\
     strip g2 = [] /\
     step (of_string "doc") init (repeat hash 2 ++ [32%N; 9%N])
     = Some (mkState (chunks (flush (of_string "doc") init))
               [repeat hash 2 ++ [32%N; 9%N]]
               (firstn 1 (current_headers init) ++ [] :: repeat [] 3)
               (chunk_id (flush (of_string "doc") init)))).
Proof.
  assert (Hk : 1 <= 2 <= 5) by lia.
  split.
  - apply (proj1 (hash_whitespace_line 2 Hk) 32%N (of_string "doc") init).
    reflexivity.
  - apply (proj2 (hash_whitespace_line 2 Hk) [32%N; 9%N] (of_string "doc")
             init).
    + reflexivity.
    + simpl; lia.
    + simpl. intros [H|[H|[]]]; discriminate.
    + reflexivity.
Defined.

(** C5, as first stated, fails: [#] followed by two spaces is matched as
    a header; met after [# A] and a content line, it flushes the
    accumulator and empties the first slot. *)
Lemma hash_two_spaces_counterexample :
  let src := of_string "s" in
  header_match (of_string "#  ") = Some (of_string "#", of_string " ") /\
  chunk_markdown (join [nl] (map of_string ["# A"; "x"; "#  "; "y"])) src
  = Some [ mkChunk (of_string "s_0") src [of_string "A"]
                   (of_string "# A" ++ [nl] ++ of_string "x");
           mkChunk (of_string "s_1") src []
                   (of_string "#  " ++ [nl] ++ of_string "y") ].
Proof. vm_compute. split; reflexivity. Qed.

(** ** Sections made of a header only *)

Lemma join_blank_tail h blanks :
  forallb all_space blanks = true ->
  exists b, join [nl] (h :: blanks) = h ++ b /\ all_space b = true.
Proof.
  intros H. destruct blanks as [|q qs].
  - exists []. simpl. rewrite app_nil_r. auto.
  - exists ([nl] ++ join [nl] (q :: qs)). split; [reflexivity|].
    rewrite all_space_app, all_space_join, H. reflexivity.
Qed.

Lemma strip_header_line line g1 g2 :
  header_match line = Some (g1, g2) -> strip line = rstrip line.
Proof.
  intros H. apply header_starts_hash in H as (r & ->).
  unfold strip, lstrip. rewrite drop_while_fixed; auto.
Qed.

(** C6 (amended): when two header lines are separated by whitespace-only
    lines at most, processing the second one emits a chunk for the first,
    and the text of that chunk is the first header line without its
    trailing whitespace (the line itself when it has none); the chunk is
    part of the result. *)
Theorem header_only_section_kept content src pre h1 blanks h2 post :
  split_nl content = pre ++ [h1] ++ blanks ++ [h2] ++ post ->
  header_match h1 <> None ->
  header_match h2 <> None ->
  forallb all_space blanks = true ->
  exists st1 st2 c cs',
    run src init (pre ++ [h1] ++ blanks) = Some st1 /\
    run src init (pre ++ [h1] ++ blanks ++ [h2]) = Some st2 /\
    chunks st2 = chunks st1 ++ [c] /\
    text c = strip h1 /\ text c = rstrip h1 /\ text c <> [] /\
    (trimmed h1 -> text c = h1) /\
    chunk_markdown content src = Some (chunks st1 ++ c :: cs').
Proof.
  intros Hl H1 H2 Hbl.
  destruct (header_match h1) as [[a1 a2]|] eqn:E1; [clear H1|congruence].
  destruct (header_match h2) as [[b1 b2]|] eqn:E2; [clear H2|congruence].
  destruct (run_total src pre init eq_refl) as (st0 & Hrun0 & Hlen0).
  assert (Hplain : forall l, In l blanks -> header_match l = None).
  { intros l Hin. apply all_space_not_header.
    rewrite forallb_forall in Hbl. auto. }
  set (hs1 := firstn (length a1 - 1) (current_headers st0)
                ++ strip a2 :: repeat [] (5 - length a1)).
  set (st1 := mkState (chunks (flush src st0)) ([h1] ++ blanks) hs1
                      (chunk_id (flush src st0))).
  assert (Hrun1 : run src init (pre ++ [h1] ++ blanks) = Some st1).
  { rewrite run_app, Hrun0, run_app. cbn [run].
    rewrite (step_header src st0 h1 a1 a2 E1 Hlen0).
    rewrite run_plain by exact Hplain. reflexivity. }
  assert (Hlen1 : length (current_headers st1) = 5).
  { apply hierarchy_length; auto. eapply header_match_level; eauto. }
  destruct (join_blank_tail h1 blanks Hbl) as (b & Hj & Hb).
  destruct (header_strip_nonempty h1 a1 a2 E1) as (r & Hs).
  assert (Ht : strip (join [nl] (current_chunk st1)) = hash :: r).
  { cbn [st1 current_chunk app]. rewrite Hj, strip_app_space; auto. }
  pose (c := mkChunk (format_id src (chunk_id st1)) src
                     (active_headers (current_headers st1)) (hash :: r)).
  assert (Hflush : chunks (flush src st1) = chunks st1 ++ [c]).
  { rewrite flush_eq, (make_chunk_text src st1 hash r Ht). reflexivity. }
  destruct (step_total src st1 h2 Hlen1) as (st2 & Hstep).
  assert (Hch2 : chunks st2 = chunks st1 ++ [c]).
  { rewrite (step_header src st1 h2 b1 b2 E2 Hlen1) in Hstep.
    injection Hstep as <-. exact Hflush. }
  assert (Hrun2 : run src init (pre ++ [h1] ++ blanks ++ [h2]) = Some st2).
  { replace (pre ++ [h1] ++ blanks ++ [h2])
      with ((pre ++ [h1] ++ blanks) ++ [h2])
      by (rewrite <- !app_assoc; reflexivity).
    rewrite run_snoc, Hrun1. exact Hstep. }
  destruct (chunk_markdown_run src content) as (st3 & Hrun3 & _ & Hcm).
  assert (Hext : exists more, finish src st3 = chunks st2 ++ more).
  { rewrite Hl in Hrun3.
    replace (pre ++ [h1] ++ blanks ++ [h2] ++ post)
      with ((pre ++ [h1] ++ blanks ++ [h2]) ++ post) in Hrun3
      by (rewrite <- !app_assoc; reflexivity).
    rewrite run_app, Hrun2 in Hrun3.
    apply run_chunks_extend in Hrun3 as (m1 & Hm1).
    destruct (finish_chunks_extend src st3) as (m2 & Hm2).
    exists (m1 ++ m2). rewrite Hm2, Hm1, app_assoc. reflexivity. }
  destruct Hext as (more & Hmore).
  exists st1, st2, c, more.
  split; [exact Hrun1|]. split; [exact Hrun2|]. split; [exact Hch2|].
  cbn [text c]. split; [auto|]. split.
  { rewrite <- Hs. eapply strip_header_line; eauto. }
  split; [discriminate|]. split.
  { intros [Hh Ht']. rewrite <- Hs. apply strip_fixed; auto. }
  rewrite Hcm, Hmore, Hch2, <- app_assoc. reflexivity.
Qed.

(** Two headers with a blank line between them. *)
Lemma header_only_section_kept_witness :
  exists st1 st2 c cs',
    run (of_string "doc") init
        ([] ++ [of_string "# One"] ++ [[]]) = Some st1 /\
    run (of_string "doc") init
        ([] ++ [of_string "# One"] ++ [[]] ++ [of_string "## Two"])
    = Some st2 /\
    chunks st2 = chunks st1 ++ [c] /\
    text c = strip (of_string "# One") /\
    text c = rstrip (of_string "# One") /\
    text c <> [] /\
    (trimmed (of_string "# One") -> text c = of_string "# One") /\
    chunk_markdown
      (join [nl] (map of_string ["# One"; ""; "## Two"; "text"]))
      (of_string "doc")
    = Some (chunks st1 ++ c :: cs').
Proof.
  apply (header_only_section_kept
           (join [nl] (map of_string ["# One"; ""; "## Two"; "text"]))
           (of_string "doc") [] (of_string "# One") [[]]
           (of_string "## Two") [of_string "text"]).
  - reflexivity.
  - vm_compute. discriminate.
  - vm_compute. discriminate.
  - reflexivity.
Defined.

(** C6, as first stated, fails: the chunk of a header line that ends with
    whitespace does not have the line as its text. *)
Lemma header_only_section_counterexample :
  let src := of_string "s" in
  header_match (of_string "# A  ") = Some (of_string "#", of_string "A  ") /\
  chunk_markdown (join [nl] (map of_string ["# A  "; "# B"])) src
  = Some [ mkChunk (of_string "s_0") src [of_string "A"] (of_string "# A");
           mkChunk (of_string "s_1") src [of_string "B"] (of_string "# B") ]
  /\ of_string "# A" <> of_string "# A  ".
Proof. vm_compute. repeat split; try reflexivity. discriminate. Qed.

(** ** Documents without header lines *)

Lemma all_space_lines content :
  all_space content = forallb all_space (split_nl content).
Proof. rewrite <- all_space_join, join_split. reflexivity. Qed.

Lemma header_free_chunks content src :
  (forall line, In line (split_nl content) -> header_match line = None) ->
  chunk_markdown content src
  = Some match strip content with
         | [] => []
         | t => [mkChunk (format_id src 0) src [] t]
         end.
Proof.
  intros H. unfold chunk_markdown. rewrite run_plain by exact H.
  cbn [chunks current_chunk current_headers chunk_id init app].
  rewrite finish_eq. unfold make_chunk. cbn [current_chunk chunks].
  rewrite join_split. destruct (strip content); reflexivity.
Qed.

Lemma whitespace_document_no_chunks content src :
  all_space content = true -> chunk_markdown content src = Some [].
Proof.
  intros H. rewrite header_free_chunks.
  - rewrite strip_all_space; auto.
  - intros line Hin. apply all_space_not_header.
    rewrite all_space_lines, forallb_forall in H. auto.
Qed.

(** C7: a document without header lines gives at most one chunk; that
    chunk has no headers and the stripped document as its text, so the
    concatenation of the stripped texts of the chunks is the stripped
    document; and a whitespace-only document gives no chunk. *)
Theorem header_free_document :
  (forall content src,
     (forall line, In line (split_nl content) -> header_match line = None) ->
     exists cs,
       chunk_markdown content src = Some cs /\
       length cs <= 1 /\
       (forall c, In c cs -> headers c = [] /\ text c = strip content) /\
       concat (map (fun c => strip (text c)) cs) = strip content /\
       (all_space content = false -> length cs = 1))
  /\
  (forall content src,
     all_space content = true -> chunk_markdown content src = Some []).
Proof.
  split; [|apply whitespace_document_no_chunks].
  intros content src H. rewrite (header_free_chunks content src H).
  destruct (strip content) as [|a t] eqn:E.
  - exists []. split; [reflexivity|]. split; [simpl; lia|].
    split; [intros c []|]. split; [reflexivity|].
    intros Hs. apply strip_nil_iff in E. congruence.
  - exists [mkChunk (format_id src 0) src [] (a :: t)].
    split; [reflexivity|]. split; [simpl; lia|]. split.
    + intros c [<-|[]]. split; reflexivity.
    + split; [|reflexivity]. simpl.
      rewrite app_nil_r, <- E. apply strip_idem.
Qed.

(** A header-free document of two lines. *)
Lemma header_free_document_witness :
  exists cs,
    chunk_markdown (join [nl] (map of_string ["  plain text"; "more  "]))
                   (of_string "doc") = Some cs /\
    length cs <= 1 /\
    (forall c, In c cs ->
       headers c = [] /\
       text c = strip (join [nl] (map of_string ["  plain text"; "more  "])))
    /\
    concat (map (fun c => strip (text c)) cs)
    = strip (join [nl] (map of_string ["  plain text"; "more  "])) /\
    (all_space (join [nl] (map of_string ["  plain text"; "more  "])) = false
     -> length cs = 1).
Proof.
  apply (proj1 header_free_document
           (join [nl] (map of_string ["  plain text"; "more  "]))
           (of_string "doc")).
  intros line [<-|[<-|[]]]; reflexivity.
Defined.

(** ** Empty results *)

(** C8 (amended): the empty document and the document of three spaces,
    two newlines and two spaces give no chunk; more generally the result
    is empty exactly when the document is whitespace only. *)
Theorem empty_result_iff_whitespace :
  (forall src, chunk_markdown [] src = Some []) /\
  (forall src,
     chunk_markdown (of_string "   " ++ [nl; nl] ++ of_string "  ") src
     = Some []) /\
  (forall content src,
     chunk_markdown content src = Some [] <-> all_space content = true).
Proof.
  split; [|split].
  - intros src. apply whitespace_document_no_chunks. reflexivity.
  - intros src. apply whitespace_document_no_chunks. reflexivity.
  - intros content src. split.
    + intros H.
      destruct (chunk_markdown_chunks content src) as (cs & Hcs & _ & He).
      rewrite all_space_lines. apply He. congruence.
    + apply whitespace_document_no_chunks.
Qed.

(** C8, as first stated, fails: a document in which every line is a
    header line or whitespace only still gives a chunk per header. *)
Lemma headers_only_counterexample :
  let doc := join [nl] (map of_string ["# A"; ""; "# B"]) in
  let src := of_string "s" in
  forallb (fun l => is_header l || all_space l)%bool (split_nl doc) = true /\
  chunk_markdown doc src
  = Some [ mkChunk (of_string "s_0") src [of_string "A"] (of_string "# A");
           mkChunk (of_string "s_1") src [of_string "B"] (of_string "# B") ].
Proof. vm_compute. split; reflexivity. Qed.

(** ** Texts handed to the embedding model *)

Lemma embedding_texts_map cs : embedding_texts cs = map embedding_text cs.
Proof.
  unfold embedding_texts.
  assert (G : forall acc,
             fold_left (fun texts c => texts ++ [embedding_text c]) cs acc
             = acc ++ map embedding_text cs).
  { induction cs as [|c cs IH]; intros acc; simpl.
    - rewrite app_nil_r. reflexivity.
    - rewrite IH, <- app_assoc. reflexivity. }
  apply G.
Qed.

(** C9: the strings given to [encode] are, in chunk order, the headers
    joined by [" > "], a newline and the text of the chunk when the chunk
    has headers, and the text alone when it has none. *)
Theorem encode_receives_prefixed_texts (E : Type) (encode : list str -> E)
  (cs : list Chunk) :
  generate_embeddings encode cs
  = encode (map (fun c =>
                   match headers c with
                   | [] => text c
                   | _ :: _ =>
                       join (of_string " > ") (headers c) ++ [nl] ++ text c
                   end) cs)
  /\ length (embedding_texts cs) = length cs
  /\ forall i c,
       nth_error cs i = Some c ->
       (headers c = [] -> nth_error (embedding_texts cs) i = Some (text c)) /\
       (headers c <> [] ->
        nth_error (embedding_texts cs) i
        = Some (join (of_string " > ") (headers c) ++ [nl] ++ text c)).
Proof.
  unfold generate_embeddings. rewrite embedding_texts_map.
  split; [|split].
  - f_equal. apply map_ext. intros c. unfold embedding_text.
    destruct (headers c); [reflexivity|].
    rewrite <- app_assoc. reflexivity.
  - apply length_map.
  - intros i c Hn. rewrite nth_error_map, Hn. unfold embedding_text. simpl.
    split.
    + intros ->. reflexivity.
    + intros H. destruct (headers c); [congruence|].
      rewrite <- app_assoc. reflexivity.
Qed.

(** * Further properties *)

(** ** Sections of a document *)

Lemma sections_not_nil lines : sections lines <> [].
Proof.
  destruct lines as [|l r]; simpl; [discriminate|].
  destruct (sections r); [discriminate|]. destruct (is_header l); discriminate.
Qed.

Lemma concat_sections lines : concat (sections lines) = lines.
Proof.
  induction lines as [|l r IH]; auto. simpl.
  destruct (sections r) as [|s ss] eqn:E.
  - elim (sections_not_nil _ E).
  - simpl in IH. destruct (is_header l); simpl; rewrite IH; reflexivity.
Qed.

Lemma is_header_true line :
  is_header line = true <-> header_match line <> None.
Proof.
  unfold is_header. destruct (header_match line); split; congruence.
Qed.

Lemma is_header_false line :
  is_header line = false <-> header_match line = None.
Proof.
  unfold is_header. destruct (header_match line); split; congruence.
Qed.

(** The first run holds no header line; every other run starts with a
    header line and holds no other. *)
Lemma sections_shape lines :
  Forall (fun l => is_header l = false) (hd [] (sections lines)) /\
  Forall (fun s => exists h body,
            s = h :: body /\ is_header h = true /\
            Forall (fun l => is_header l = false) body)
         (tl (sections lines)).
Proof.
  induction lines as [|l r IH]; simpl; [auto|].
  destruct (sections r) as [|s ss] eqn:E.
  - elim (sections_not_nil _ E).
  - simpl in IH. destruct IH as [IH1 IH2].
    destruct (is_header l) eqn:El; simpl; split; auto.
    constructor; auto. exists l, s. auto.
Qed.

Lemma sections_count lines :
  length (tl (sections lines)) = length (filter is_header lines).
Proof.
  induction lines as [|l r IH]; simpl; [auto|].
  destruct (sections r) as [|s ss] eqn:E.
  - elim (sections_not_nil _ E).
  - simpl in IH. destruct (is_header l); simpl; auto.
Qed.

Lemma section_texts_app a b :
  section_texts (a ++ b) = section_texts a ++ section_texts b.
Proof. unfold section_texts. rewrite map_app, filter_app. reflexivity. Qed.

Lemma section_text_header h body :
  is_header h = true -> nonempty (section_text (h :: body)) = true.
Proof.
  intros H. apply is_header_true in H.
  destruct (header_match h) as [[g1 g2]|] eqn:E; [|congruence].
  destruct (header_starts_hash h g1 g2 E) as (r & ->).
  destruct (join_cons_head [nl] (hash :: r) body) as (r' & Ej).
  unfold section_text. rewrite Ej.
  destruct (strip_cons_nonspace hash (r ++ r') isspace_hash) as (r'' & Es).
  simpl in Es |- *. rewrite Es. reflexivity.
Qed.

Lemma nonempty_section_text seg :
  nonempty (section_text seg) = negb (forallb all_space seg).
Proof.
  unfold section_text. rewrite <- all_space_join.
  destruct (strip (join [nl] seg)) eqn:E.
  - apply strip_nil_iff in E. rewrite E. reflexivity.
  - destruct (all_space (join [nl] seg)) eqn:A; auto.
    apply strip_all_space in A. congruence.
Qed.

Section Sections.

Variable src : str.

Lemma finish_texts st :
  map text (finish src st)
  = map text (chunks st) ++ section_texts [current_chunk st].
Proof.
  rewrite finish_eq. unfold section_texts, section_text, make_chunk. simpl.
  destruct (strip (join [nl] (current_chunk st))); simpl.
  - rewrite app_nil_r. reflexivity.
  - rewrite map_app. reflexivity.
Qed.

Lemma flush_texts st :
  map text (chunks (flush src st))
  = map text (chunks st) ++ section_texts [current_chunk st].
Proof.
  rewrite flush_eq. unfold section_texts, section_text, make_chunk. simpl.
  destruct (strip (join [nl] (current_chunk st))); simpl.
  - rewrite app_nil_r. reflexivity.
  - rewrite map_app. reflexivity.
Qed.

(** The loop and the last flush, from any state: the accumulator goes
    with the lines before the first header line. *)
Lemma run_finish_texts lines st :
  length (current_headers st) = 5 ->
  exists st',
    run src st lines = Some st' /\
    map text (finish src st')
    = map text (chunks st)
      ++ section_texts (prepend (current_chunk st) (sections lines)).
Proof.
  revert st. induction lines as [|l r IH]; intros st Hlen.
  - exists st. split; [reflexivity|]. simpl. rewrite app_nil_r.
    apply finish_texts.
  - cbn [run sections].
    destruct (sections r) as [|s ss] eqn:E; [elim (sections_not_nil _ E)|].
    destruct (header_match l) as [[g1 g2]|] eqn:Eh.
    + rewrite (step_header src st l g1 g2 Eh Hlen).
      edestruct IH as (st' & Hrun & Ht); [|exists st'; split; [exact Hrun|]].
      { apply hierarchy_length; auto. eapply header_match_level; eauto. }
      rewrite Ht. cbn [chunks current_chunk prepend].
      assert (is_header l = true) as -> by (apply is_header_true; congruence).
      rewrite flush_texts, <- app_assoc. cbn [prepend].
      rewrite app_nil_r. f_equal.
      change ([l] ++ s) with (l :: s).
      change (current_chunk st :: (l :: s) :: ss)
        with ([current_chunk st] ++ (l :: s) :: ss).
      rewrite section_texts_app. reflexivity.
    + rewrite (step_plain src st l Eh).
      edestruct IH as (st' & Hrun & Ht); [|exists st'; split; [exact Hrun|]].
      { exact Hlen. }
      rewrite Ht. cbn [chunks current_chunk prepend].
      assert (is_header l = false) as -> by (apply is_header_false; auto).
      cbn [prepend]. rewrite <- app_assoc. reflexivity.
Qed.

Lemma chunk_markdown_texts content :
  exists cs,
    chunk_markdown content src = Some cs /\
    map text cs = section_texts (sections (split_nl content)).
Proof.
  destruct (run_finish_texts (split_nl content) init eq_refl)
    as (st & Hrun & Ht).
  exists (finish src st). unfold chunk_markdown. rewrite Hrun.
  split; [reflexivity|]. rewrite Ht. simpl.
  destruct (sections (split_nl content)) eqn:E; [elim (sections_not_nil _ E)|].
  reflexivity.
Qed.

End Sections.

(** ** Stripping around a core *)

Lemma drop_while_app_stop p a c r :
  p c = false -> drop_while p (a ++ c :: r) = drop_while p a ++ c :: r.
Proof.
  intros Hc. induction a as [|x a IH]; simpl.
  - rewrite Hc. reflexivity.
  - destruct (p x); auto.
Qed.

Lemma rstrip_app_stop z c b :
  isspace c = false -> rstrip ((z ++ [c]) ++ b) = (z ++ [c]) ++ rstrip b.
Proof.
  intros Hc. unfold rstrip.
  rewrite rev_app_distr, (rev_app_distr z [c]). simpl.
  rewrite drop_while_app_stop by exact Hc.
  rewrite rev_app_distr. simpl. rewrite rev_involutive. reflexivity.
Qed.

(** A core that neither starts nor ends with whitespace survives the
    stripping of what is around it. *)
Lemma strip_around a m b :
  m <> [] -> trimmed m ->
  strip (a ++ m ++ b) = lstrip a ++ m ++ rstrip b.
Proof.
  intros Hne [Hh Hl].
  destruct (exists_last Hne) as (z & d & Hz).
  assert (Hd : isspace d = false) by (eapply Hl; eauto).
  destruct m as [|c r]; [congruence|].
  assert (Hc : isspace c = false) by (eapply Hh; eauto).
  unfold strip, lstrip.
  replace (a ++ (c :: r) ++ b) with (a ++ c :: (r ++ b)) by reflexivity.
  rewrite drop_while_app_stop by exact Hc.
  replace (drop_while isspace a ++ c :: r ++ b)
    with (((drop_while isspace a ++ z) ++ [d]) ++ b).
  2:{ rewrite <- !app_assoc. change (c :: r ++ b) with ((c :: r) ++ b).
      rewrite Hz, <- !app_assoc. reflexivity. }
  rewrite rstrip_app_stop by exact Hd.
  rewrite Hz, <- !app_assoc. reflexivity.
Qed.

Lemma strip_not_nil s : all_space s = false -> strip s <> [].
Proof. intros H E. apply strip_nil_iff in E. congruence. Qed.

Lemma section_texts_headers ss :
  Forall (fun s => exists h body,
            s = h :: body /\ is_header h = true /\
            Forall (fun l => is_header l = false) body) ss ->
  length (section_texts ss) = length ss.
Proof.
  unfold section_texts. induction 1 as [|s ss (h & body & -> & Hh & _) _ IH];
    auto.
  cbn [map filter]. rewrite section_text_header by exact Hh.
  simpl. rewrite IH. reflexivity.
Qed.

(** ** What the chunks hold *)

(** X1: [chunk_markdown] never raises, and every chunk it returns carries
    the source it was given. *)
Theorem chunks_carry_source content src :
  exists cs,
    chunk_markdown content src = Some cs /\
    Forall (fun c => source c = src) cs.
Proof.
  destruct (chunk_markdown_chunks content src) as (cs & Hcs & Hch & _).
  exists cs. split; [exact Hcs|]. apply Forall_forall. intros c Hin.
  apply In_nth_error in Hin as (i & Hn).
  destruct (Hch i c Hn) as (l1 & seg & l2 & Hf & _). apply Hf.
Qed.

(** X2: the texts of the returned chunks are, in document order, the
    stripped texts of the runs of lines obtained by cutting the document
    before every header line, without the runs that are whitespace only;
    the runs put end to end are the lines of the document, the first run
    holds no header line and every other run starts with a header line
    and holds no other. *)
Theorem chunk_texts_are_sections content src :
  exists cs,
    chunk_markdown content src = Some cs /\
    map text cs
    = filter nonempty
        (map (fun seg => strip (join [nl] seg))
             (sections (split_nl content))) /\
    concat (sections (split_nl content)) = split_nl content /\
    Forall (fun l => header_match l = None)
           (hd [] (sections (split_nl content))) /\
    Forall (fun s => exists h body,
              s = h :: body /\ header_match h <> None /\
              Forall (fun l => header_match l = None) body)
           (tl (sections (split_nl content))).
Proof.
  destruct (chunk_markdown_texts src content) as (cs & Hcs & Ht).
  exists cs. split; [exact Hcs|]. split; [exact Ht|].
  split; [apply concat_sections|].
  destruct (sections_shape (split_nl content)) as [H1 H2]. split.
  - eapply Forall_impl; [|exact H1]. intros l. apply is_header_false.
  - eapply Forall_impl; [|exact H2].
    intros s (h & body & -> & Hh & Hb). exists h, body.
    split; [reflexivity|]. split; [apply is_header_true; auto|].
    eapply Forall_impl; [|exact Hb]. intros l. apply is_header_false.
Qed.

(** X3: the number of returned chunks is the number of header lines,
    plus one when the lines before the first header line are not all
    whitespace. *)
Theorem chunk_count content src :
  exists cs,
    chunk_markdown content src = Some cs /\
    length cs
    = length (filter is_header (split_nl content))
      + (if forallb all_space (hd [] (sections (split_nl content)))
         then 0 else 1) /\
    length (filter is_header (split_nl content)) <= length cs
      <= S (length (filter is_header (split_nl content))).
Proof.
  destruct (chunk_markdown_texts src content) as (cs & Hcs & Ht).
  exists cs. split; [exact Hcs|].
  assert (E : length cs
              = length (filter is_header (split_nl content))
                + (if forallb all_space (hd [] (sections (split_nl content)))
                   then 0 else 1)).
  { rewrite <- (length_map text cs), Ht, <- sections_count.
    destruct (sections_shape (split_nl content)) as [_ H2].
    destruct (sections (split_nl content)) as [|s ss] eqn:Es;
      [elim (sections_not_nil _ Es)|].
    cbn [hd tl] in *.
    change (s :: ss) with ([s] ++ ss).
    rewrite section_texts_app, length_app, (section_texts_headers ss H2).
    unfold section_texts. cbn [map filter].
    rewrite nonempty_section_text.
    destruct (forallb all_space s); simpl; lia. }
  split; [exact E|].
  destruct (forallb all_space (hd [] (sections (split_nl content)))); lia.
Qed.

(** X4: no content is lost: every line of the document that is not
    whitespace only is found, stripped, inside the text of a returned
    chunk. *)
Theorem no_line_lost content src line :
  In line (split_nl content) ->
  all_space line = false ->
  exists cs c pre post,
    chunk_markdown content src = Some cs /\
    In c cs /\
    text c = pre ++ strip line ++ post.
Proof.
  intros Hin Hsp.
  destruct (chunk_markdown_texts src content) as (cs & Hcs & Ht).
  rewrite <- (concat_sections (split_nl content)) in Hin.
  apply in_concat in Hin as (seg & Hseg & Hl).
  apply in_split in Hl as (l1 & l2 & ->).
  destruct (join_run_substring [nl] l1 [line] l2) as (a & b & Hj).
  change (line :: l2) with ([line] ++ l2) in Hseg.
  destruct (strip_decomp line) as (la & lb & Hline & _).
  pose proof (strip_not_nil line Hsp) as Hne.
  pose proof (strip_trimmed line) as Htr.
  assert (Hs : section_text (l1 ++ [line] ++ l2)
               = lstrip (a ++ la) ++ strip line ++ rstrip (lb ++ b)).
  { unfold section_text. rewrite Hj. cbn [join].
    remember (strip line) as sl. rewrite Hline.
    replace (a ++ (la ++ sl ++ lb) ++ b)
      with ((a ++ la) ++ sl ++ (lb ++ b))
      by (rewrite <- !app_assoc; reflexivity).
    apply strip_around; assumption. }
  assert (Hmem : In (section_text (l1 ++ [line] ++ l2)) (map text cs)).
  { rewrite Ht. unfold section_texts. apply filter_In. split.
    - apply in_map. exact Hseg.
    - rewrite Hs.
      destruct (lstrip (a ++ la)); [|reflexivity].
      destruct (strip line); [congruence|reflexivity]. }
  apply in_map_iff in Hmem as (c & Hc & Hinc).
  exists cs, c, (lstrip (a ++ la)), (rstrip (lb ++ b)).
  split; [exact Hcs|]. split; [exact Hinc|]. rewrite Hc. exact Hs.
Qed.

(** A content line between a header and trailing blank lines. *)
Lemma no_line_lost_witness :
  exists cs c pre post,
    chunk_markdown
      (join [nl] (map of_string ["# Title"; "  body text  "; ""]))
      (of_string "doc") = Some cs /\
    In c cs /\
    text c = pre ++ strip (of_string "  body text  ") ++ post.
Proof.
  apply (no_line_lost
           (join [nl] (map of_string ["# Title"; "  body text  "; ""]))
           (of_string "doc") (of_string "  body text  ")).
  - vm_compute. auto.
  - reflexivity.
Defined.

(** ** The text of a header *)

Lemma strip_space_app a s : all_space a = true -> strip (a ++ s) = strip s.
Proof.
  intros H. unfold strip, lstrip. rewrite drop_while_app_all by exact H.
  reflexivity.
Qed.

Lemma strip_incl s x : In x (strip s) -> In x s.
Proof.
  intros H. destruct (strip_decomp s) as (a & b & Hs & _).
  rewrite Hs, !in_app_iff. auto.
Qed.

(** X5: on a header line of the document, the level is the length of the
    run of [#] the line starts with, and the header text is what follows
    that run, stripped: neither depends on how the whitespace after the
    [#] is shared between [\s+] and [(.+)]. *)
Theorem header_text_after_hashes content line g1 g2 :
  In line (split_nl content) ->
  header_match line = Some (g1, g2) ->
  g1 = firstn (leading_hashes line) line /\
  strip g2 = strip (skipn (leading_hashes line) line).
Proof.
  intros Hin H. apply split_nl_no_nl in Hin.
  apply header_match_line in H
    as (ws & _ & _ & Hlev & _ & Hsp & _ & Hl); auto.
  rewrite <- Hlev. clear Hlev. subst line.
  rewrite firstn_app, Nat.sub_diag, firstn_all, app_nil_r.
  rewrite skipn_app, Nat.sub_diag, skipn_all. cbn [skipn app firstn].
  rewrite strip_space_app by exact Hsp. auto.
Qed.

(** The header [##], three spaces, [Sub  Title] and a trailing space. *)
Lemma header_text_after_hashes_witness :
  of_string "##" = firstn (leading_hashes (of_string "##   Sub  Title "))
                          (of_string "##   Sub  Title ") /\
  strip (of_string "Sub  Title ")
  = strip (skipn (leading_hashes (of_string "##   Sub  Title "))
                 (of_string "##   Sub  Title ")).
Proof.
  apply (header_text_after_hashes
           (join [nl] (map of_string ["intro"; "##   Sub  Title "]))
           (of_string "##   Sub  Title ")
           (of_string "##") (of_string "Sub  Title ")).
  - vm_compute. auto.
  - reflexivity.
Defined.

(** ** The hierarchy of the reachable states *)

Lemma slot_ok_nil : slot_ok [].
Proof.
  split; [split|]; simpl; auto; intros; try discriminate.
  destruct r; discriminate.
Qed.

Lemma slot_ok_header line g1 g2 :
  header_match line = Some (g1, g2) -> slot_ok (strip g2).
Proof.
  intros H. apply header_match_sound in H
    as (k & ws & tl & _ & _ & _ & _ & _ & Hnl & _).
  split; [apply strip_trimmed|]. intros Hin. apply Hnl.
  apply strip_incl; auto.
Qed.

Lemma In_firstn (A : Type) n (l : list A) x : In x (firstn n l) -> In x l.
Proof.
  intros H. rewrite <- (firstn_skipn n l). apply in_or_app. auto.
Qed.

Lemma slots_ok_update hs level t :
  Forall slot_ok hs -> slot_ok t ->
  Forall slot_ok (firstn (level - 1) hs ++ t :: repeat [] (5 - level)).
Proof.
  intros Hhs Ht. apply Forall_app. split.
  - apply Forall_forall. intros x Hx. rewrite Forall_forall in Hhs.
    apply Hhs. eapply In_firstn; eauto.
  - constructor; auto. apply Forall_forall. intros x Hx.
    apply repeat_spec in Hx. subst x. apply slot_ok_nil.
Qed.

Section Hierarchy.

Variable src : str.

Lemma hierarchy_ok_init : hierarchy_ok init.
Proof. split; [reflexivity|]. repeat constructor; apply slot_ok_nil. Qed.

Lemma hierarchy_ok_step st line st' :
  hierarchy_ok st -> step src st line = Some st' -> hierarchy_ok st'.
Proof.
  intros [Hlen Hok] Hstep.
  split; [eapply step_headers_length; eauto|].
  destruct (header_match line) as [[g1 g2]|] eqn:E.
  - rewrite (step_header src st line g1 g2 E Hlen) in Hstep.
    injection Hstep as <-. cbn [current_headers].
    apply slots_ok_update; auto. eapply slot_ok_header; eauto.
  - rewrite step_plain in Hstep by assumption. injection Hstep as <-. auto.
Qed.

Lemma hierarchy_ok_run lines st st' :
  hierarchy_ok st -> run src st lines = Some st' -> hierarchy_ok st'.
Proof.
  revert st. induction lines as [|l r IH]; intros st Hok; simpl.
  - intros H; injection H as <-. exact Hok.
  - destruct (step src st l) as [st1|] eqn:E; [|discriminate].
    apply IH. eapply hierarchy_ok_step; eauto.
Qed.

Lemma opened_by_step st line st' :
  length (current_headers st) = 5 -> opened_by st ->
  step src st line = Some st' -> opened_by st'.
Proof.
  intros Hlen Hop Hstep. destruct (header_match line) as [[g1 g2]|] eqn:E.
  - rewrite (step_header src st line g1 g2 E Hlen) in Hstep.
    injection Hstep as <-. unfold opened_by. cbn [current_chunk current_headers].
    rewrite E. pose proof (header_match_level line g1 g2 E) as HL.
    remember (length g1) as L. remember (strip g2) as t.
    destruct (current_headers st)
      as [|h1 [|h2 [|h3 [|h4 [|h5 [|h6 hs]]]]]]; try discriminate.
    level_cases L; simpl; (split; [reflexivity|]); intros j Hj;
      repeat (destruct j as [|j]; try lia; try reflexivity).
  - rewrite step_plain in Hstep by assumption. injection Hstep as <-.
    unfold opened_by in *. cbn [current_chunk current_headers].
    destruct (current_chunk st) as [|h t]; simpl.
    + rewrite E. exact Hop.
    + exact Hop.
Qed.

Lemma opened_by_run lines st st' :
  length (current_headers st) = 5 -> opened_by st ->
  run src st lines = Some st' -> opened_by st'.
Proof.
  revert st. induction lines as [|l r IH]; intros st Hlen Hop; simpl.
  - intros H; injection H as <-. exact Hop.
  - destruct (step src st l) as [st1|] eqn:E; [|discriminate].
    apply IH.
    + eapply step_headers_length; eauto.
    + eapply opened_by_step; eauto.
Qed.

End Hierarchy.

Lemma active_headers_length hs : length (active_headers hs) <= length hs.
Proof. apply filter_length_le. Qed.

(** The non-empty slots when slot [L] holds [t] and nothing is deeper. *)
Lemma active_headers_level (hs : list str) L t :
  length hs = 5 -> 1 <= L <= 5 ->
  nth (L - 1) hs [] = t ->
  (forall j, L <= j -> nth j hs [] = []) ->
  active_headers hs
  = active_headers (firstn (L - 1) hs) ++ (if nonempty t then [t] else []).
Proof.
  intros Hlen HL Ht Hd.
  destruct hs as [|h1 [|h2 [|h3 [|h4 [|h5 [|h6 hs]]]]]]; try discriminate.
  pose proof (Hd 1) as D1. pose proof (Hd 2) as D2.
  pose proof (Hd 3) as D3. pose proof (Hd 4) as D4.
  level_cases L; simpl in *; subst t;
    try (rewrite D1 by lia); try (rewrite D2 by lia);
    try (rewrite D3 by lia); try (rewrite D4 by lia);
    unfold active_headers; simpl;
    repeat match goal with
           | |- context [nonempty ?h] => destruct (nonempty h)
           end; reflexivity.
Qed.

Lemma opened_by_init : opened_by init.
Proof. reflexivity. Qed.

(** ** Headers of the chunks, continued *)

(** X6: the headers of a returned chunk are at most five, and each of
    them is a non-empty text without whitespace at either end and without
    newline. *)
Theorem chunk_headers_well_formed content src :
  exists cs,
    chunk_markdown content src = Some cs /\
    Forall (fun c =>
              length (headers c) <= 5 /\
              Forall (fun h => h <> [] /\ trimmed h /\ ~ In nl h)
                     (headers c)) cs.
Proof.
  destruct (chunk_markdown_chunks content src) as (cs & Hcs & Hch & _).
  exists cs. split; [exact Hcs|]. apply Forall_forall. intros c Hin.
  apply In_nth_error in Hin as (i & Hn).
  destruct (Hch i c Hn) as (l1 & seg & l2 & Hf & _).
  destruct Hf as (_ & _ & _ & _ & _ & stc & Hrun & _ & Hh).
  destruct (hierarchy_ok_run src _ _ _ hierarchy_ok_init Hrun) as [Hlen Hok].
  rewrite Hh. split.
  - rewrite <- Hlen. apply active_headers_length.
  - apply Forall_forall. intros h Hhin. unfold active_headers in Hhin.
    apply filter_In in Hhin as [Hhin Hne].
    rewrite Forall_forall in Hok. destruct (Hok h Hhin) as [Ht Hnl].
    repeat split; auto; try apply Ht. intros ->. discriminate.
Qed.


(** ** Identifiers across sources *)

Lemma uint_no_underscore d :
  ~ In 95%N (of_string (NilEmpty.string_of_uint d)).
Proof.
  induction d; simpl; [intros []|..]; intros [H|H]; try discriminate; auto.
Qed.

Lemma decimal_no_underscore n : ~ In 95%N (decimal n).
Proof. apply uint_no_underscore. Qed.

(** Where the last separator is decides both sides of it. *)
Lemma app_sep_inj (u : char) a b d1 d2 :
  ~ In u d1 -> ~ In u d2 ->
  a ++ u :: d1 = b ++ u :: d2 -> a = b /\ d1 = d2.
Proof.
  intros H1 H2. revert b. induction a as [|x a IH]; intros [|y b] E;
    simpl in E.
  - injection E as E. auto.
  - injection E as Ex E. exfalso. apply H1. rewrite E, in_app_iff.
    simpl. auto.
  - injection E as Ex E. exfalso. apply H2. rewrite <- E, in_app_iff.
    simpl. auto.
  - injection E as Ex E. destruct (IH b E) as [-> ->]. subst y. auto.
Qed.

Lemma format_id_inj2 s1 n1 s2 n2 :
  format_id s1 n1 = format_id s2 n2 -> s1 = s2 /\ n1 = n2.
Proof.
  unfold format_id. intros H.
  change (of_string "_") with [95%N] in H. cbn [app] in H.
  apply app_sep_inj in H; try apply decimal_no_underscore.
  destruct H as [-> H]. split; [reflexivity|]. apply decimal_inj; auto.
Qed.

(** X8: an identifier determines both the source and the sequence number
    it was made of: two chunks that differ by their source or by their
    sequence number never share an id, whatever the sources are
    (underscores and digits included). *)
Theorem format_id_determines_source s1 n1 s2 n2 :
  (s1, n1) <> (s2, n2) -> format_id s1 n1 <> format_id s2 n2.
Proof.
  intros Hne H. apply format_id_inj2 in H as [-> ->]. apply Hne. reflexivity.
Qed.

(** Chunk 10 of source [a] and chunk 0 of source [a_1]. *)
Lemma format_id_determines_source_witness :
  format_id (of_string "a") 10 <> format_id (of_string "a_1") 0.
Proof.
  apply (format_id_determines_source (of_string "a") 10 (of_string "a_1") 0).
  intros H. injection H as H _. vm_compute in H. discriminate.
Defined.

(** ** [main] *)

Lemma chunk_ids_of_source content src cs :
  chunk_markdown content src = Some cs ->
  Forall (fun c => source c = src /\ exists i, id c = format_id src i) cs /\
  NoDup (map id cs).
Proof.
  intros H.
  destruct (chunk_markdown_chunks content src) as (cs' & Hcs & Hch & _).
  assert (cs' = cs) by congruence. subst cs'. split.
  - apply Forall_forall. intros c Hin.
    apply In_nth_error in Hin as (i & Hn).
    destruct (Hch i c Hn) as (l1 & seg & l2 & Hf & _).
    split; [apply Hf|]. exists i. apply Hf.
  - rewrite (map_by_index (format_id src) cs 0).
    + apply Injective_map_NoDup; [apply format_id_inj|apply seq_NoDup].
    + intros i c Hn. destruct (Hch i c Hn) as (l1 & seg & l2 & Hf & _).
      apply Hf.
Qed.

Lemma collect_chunks_concat files all_chunks :
  exists css,
    chunks_of_files files css /\
    collect_chunks (map readable files) all_chunks
    = Some (all_chunks ++ concat css).
Proof.
  revert all_chunks. induction files as [|[stem content] rest IH];
    intros acc.
  - exists []. split; [constructor|]. simpl. rewrite app_nil_r. reflexivity.
  - destruct (chunk_markdown_chunks content stem) as (cs & Hcs & _).
    destruct (IH (acc ++ cs)) as (css & Hall & Hc).
    exists (cs :: css). split; [constructor; auto|].
    simpl. rewrite Hcs, Hc, <- app_assoc. reflexivity.
Qed.

Lemma collect_chunks_unreadable md_files all_chunks stem :
  In (stem, None) md_files -> collect_chunks md_files all_chunks = None.
Proof.
  revert all_chunks.
  induction md_files as [|[stem' read] rest IH]; intros acc Hin; [elim Hin|].
  simpl. destruct read as [content|]; [|reflexivity].
  destruct Hin as [Hin|Hin]; [discriminate|].
  destruct (chunk_markdown content stem'); auto.
Qed.

Lemma chunks_of_files_sources md_files css c :
  chunks_of_files md_files css -> In c (concat css) ->
  In (source c) (map fst md_files) /\
  exists i, id c = format_id (source c) i.
Proof.
  induction 1 as [|f cs fs css Hf _ IH]; simpl; [tauto|].
  rewrite in_app_iff. intros [Hin|Hin].
  - apply chunk_ids_of_source in Hf as [Hf _].
    rewrite Forall_forall in Hf. destruct (Hf c Hin) as [Hs Hi].
    rewrite Hs. auto.
  - destruct (IH Hin). auto.
Qed.

Lemma chunks_of_files_nodup md_files css :
  chunks_of_files md_files css -> NoDup (map fst md_files) ->
  NoDup (map id (concat css)).
Proof.
  induction 1 as [|f cs fs css Hf Hall IH]; simpl; [constructor|].
  intros Hnd. inversion Hnd as [|x xs Hnotin Hnd']; subst.
  rewrite map_app. apply NoDup_app; auto.
  - eapply chunk_ids_of_source; eauto.
  - intros a Ha Hb.
    apply in_map_iff in Ha as (c & <- & Hc).
    apply in_map_iff in Hb as (c' & Hid & Hc').
    apply chunk_ids_of_source in Hf as [Hf _].
    rewrite Forall_forall in Hf. destruct (Hf c Hc) as (Hs & i & Hi).
    destruct (chunks_of_files_sources fs css c' Hall Hc') as (Hs' & j & Hj).
    rewrite Hi, Hj in Hid.
    apply format_id_inj2 in Hid as [Hid _].
    apply Hnotin. rewrite <- Hid. exact Hs'.
Qed.



(** ** The texts handed to the model, for the chunks of a document *)

Lemma chunk_headers_slot_ok content src cs :
  chunk_markdown content src = Some cs ->
  Forall (fun c => Forall slot_ok (headers c)) cs.
Proof.
  intros H.
  destruct (chunk_markdown_chunks content src) as (cs' & Hcs & Hch & _).
  assert (cs' = cs) by congruence. subst cs'.
  apply Forall_forall. intros c Hin.
  apply In_nth_error in Hin as (i & Hn).
  destruct (Hch i c Hn) as (l1 & seg & l2 & Hf & _).
  destruct Hf as (_ & _ & _ & _ & _ & stc & Hrun & _ & Hh).
  destruct (hierarchy_ok_run src _ _ _ hierarchy_ok_init Hrun) as [_ Hok].
  rewrite Hh. apply Forall_forall. intros h Hhin.
  apply filter_In in Hhin as [Hhin _].
  rewrite Forall_forall in Hok. auto.
Qed.

Lemma split_nl_app_nl a b :
  ~ In nl a -> split_nl (a ++ nl :: b) = a :: split_nl b.
Proof.
  induction a as [|c a IH]; intros H.
  - reflexivity.
  - cbn [app split_nl]. rewrite IH by (intros Hc; apply H; simpl; auto).
    destruct (N.eqb_spec c nl); [|reflexivity].
    subst c. elim H. simpl. auto.
Qed.

Lemma join_no_nl sep hs :
  ~ In nl sep -> Forall (fun h => ~ In nl h) hs -> ~ In nl (join sep hs).
Proof.
  intros Hsep. induction 1 as [|h hs Hh _ IH]; simpl; auto.
  destruct hs as [|q hs]; auto.
  rewrite !in_app_iff. tauto.
Qed.

(** X10: for the chunks of a document, the text handed to the model has
    the headers of the chunk, joined by [" > "], as its first line and
    the lines of the text of the chunk after it; for a chunk without
    headers it is the text of the chunk. *)
Theorem embedding_text_lines content src :
  exists cs,
    chunk_markdown content src = Some cs /\
    Forall (fun c =>
              match headers c with
              | [] => embedding_text c = text c
              | _ :: _ =>
                  split_nl (embedding_text c)
                  = join (of_string " > ") (headers c) :: split_nl (text c)
              end) cs.
Proof.
  destruct (chunk_markdown_chunks content src) as (cs & Hcs & _).
  exists cs. split; [exact Hcs|].
  pose proof (chunk_headers_slot_ok content src cs Hcs) as Hok.
  eapply Forall_impl; [|exact Hok]. intros c Hc. cbv beta in Hc.
  unfold embedding_text.
  destruct (headers c) as [|h hs]; [reflexivity|].
  rewrite <- app_assoc. cbn [app]. apply split_nl_app_nl.
  apply join_no_nl.
  - simpl. intros [H|[H|[H|[]]]]; discriminate.
  - eapply Forall_impl; [|exact Hc]. intros x [_ Hx]. exact Hx.
Qed.

(** ** The source is a label only *)

Section Labels.

Variables s1 s2 : str.

Lemma flush_same_content st1 st2 :
  same_content st1 st2 -> same_content (flush s1 st1) (flush s2 st2).
Proof.
  intros (Hc & Hcc & Hh). rewrite !flush_eq. unfold make_chunk.
  rewrite Hcc, Hh. destruct (strip (join [nl] (current_chunk st2)));
    unfold same_content; simpl; auto.
  rewrite !map_app, Hc. auto.
Qed.

Lemma finish_same_content st1 st2 :
  same_content st1 st2 ->
  map unlabelled (finish s1 st1) = map unlabelled (finish s2 st2).
Proof.
  intros (Hc & Hcc & Hh). rewrite !finish_eq. unfold make_chunk.
  rewrite Hcc, Hh. destruct (strip (join [nl] (current_chunk st2))); auto.
  rewrite !map_app, Hc. reflexivity.
Qed.

Lemma step_same_content st1 st2 line st1' st2' :
  same_content st1 st2 ->
  step s1 st1 line = Some st1' -> step s2 st2 line = Some st2' ->
  same_content st1' st2'.
Proof.
  intros H. unfold step. destruct (header_match line) as [[g1 g2]|].
  - apply flush_same_content in H. destruct H as (Hc & Hcc & Hh).
    rewrite Hh, Hcc.
    destruct (update_headers _ _ _); [|discriminate].
    intros E1 E2. injection E1 as <-. injection E2 as <-.
    unfold same_content. simpl. auto.
  - destruct H as (Hc & Hcc & Hh).
    intros E1 E2. injection E1 as <-. injection E2 as <-.
    unfold same_content. simpl. rewrite Hcc. auto.
Qed.

Lemma run_same_content lines st1 st2 st1' st2' :
  same_content st1 st2 ->
  run s1 st1 lines = Some st1' -> run s2 st2 lines = Some st2' ->
  same_content st1' st2'.
Proof.
  revert st1 st2. induction lines as [|l r IH]; intros st1 st2 H; simpl.
  - intros E1 E2. injection E1 as <-. injection E2 as <-. exact H.
  - destruct (step s1 st1 l) as [a|] eqn:Ea; [|discriminate].
    destruct (step s2 st2 l) as [b|] eqn:Eb; [|discriminate].
    apply IH. eapply step_same_content; eauto.
Qed.

End Labels.

(** X11: the source argument only labels the chunks: with two sources
    the same document gives the same headers and texts, chunk by
    chunk. *)
Theorem source_only_labels content s1 s2 :
  exists cs1 cs2,
    chunk_markdown content s1 = Some cs1 /\
    chunk_markdown content s2 = Some cs2 /\
    map (fun c => (headers c, text c)) cs1
    = map (fun c => (headers c, text c)) cs2.
Proof.
  destruct (chunk_markdown_run s1 content) as (st1 & H1 & _ & E1).
  destruct (chunk_markdown_run s2 content) as (st2 & H2 & _ & E2).
  exists (finish s1 st1), (finish s2 st2).
  split; [exact E1|]. split; [exact E2|].
  apply finish_same_content.
  eapply run_same_content; [|exact H1|exact H2].
  repeat split.
Qed.

(** ** Appending to a document *)

Lemma split_nl_app a b :
  split_nl (a ++ nl :: b) = split_nl a ++ split_nl b.
Proof.
  induction a as [|c a IH].
  - reflexivity.
  - cbn [app split_nl]. rewrite IH.
    destruct (split_nl a) as [|l ls] eqn:E; [elim (split_nl_not_nil _ E)|].
    destruct (N.eqb c nl); reflexivity.
Qed.

(** X12: lines appended to a document (after a newline) change the last
    chunk at most: all the other chunks of the document are returned
    again, unchanged and in the same places. *)
Theorem append_keeps_earlier_chunks content more src :
  exists cs cs',
    chunk_markdown content src = Some cs /\
    chunk_markdown (content ++ nl :: more) src = Some cs' /\
    length cs - 1 <= length cs' /\
    firstn (length cs - 1) cs' = firstn (length cs - 1) cs.
Proof.
  destruct (chunk_markdown_run src content) as (st & Hrun & Hlen & Hcm).
  destruct (chunk_markdown_run src (content ++ nl :: more))
    as (st' & Hrun' & _ & Hcm').
  exists (finish src st), (finish src st').
  split; [exact Hcm|]. split; [exact Hcm'|].
  rewrite split_nl_app, run_app, Hrun in Hrun'.
  apply run_chunks_extend in Hrun' as (m1 & Hm1).
  destruct (finish_chunks_extend src st') as (m2 & Hm2).
  rewrite Hm2, Hm1, <- app_assoc.
  assert (Hf : length (finish src st) - 1 <= length (chunks st) /\
               firstn (length (finish src st) - 1) (finish src st)
               = firstn (length (finish src st) - 1) (chunks st)).
  { rewrite finish_eq. destruct (make_chunk src st).
    - rewrite length_app. simpl.
      replace (length (chunks st) + 1 - 1) with (length (chunks st)) by lia.
      split; [lia|]. rewrite firstn_app, Nat.sub_diag. simpl.
      rewrite app_nil_r. reflexivity.
    - split; [lia|reflexivity]. }
  destruct Hf as [Hle Hf]. split.
  - rewrite length_app. lia.
  - rewrite Hf. rewrite firstn_app.
    replace (length (finish src st) - 1 - length (chunks st)) with 0 by lia.
    simpl. rewrite app_nil_r. reflexivity.
Qed.

(** ** From a chunk to the next *)

Lemma active_headers_repeat n : active_headers (repeat [] n) = [].
Proof. induction n; simpl; auto. Qed.

Lemma next_headers_update (hs : list str) L t :
  next_headers (active_headers hs)
    (active_headers (firstn (L - 1) hs ++ t :: repeat [] (5 - L))).
Proof.
  exists (active_headers (firstn (L - 1) hs)),
         (active_headers (skipn (L - 1) hs)),
         (if nonempty t then [t] else []).
  unfold active_headers. split; [|split].
  - rewrite <- filter_app, firstn_skipn. reflexivity.
  - rewrite filter_app. f_equal. cbn [filter].
    fold (active_headers (repeat [] (5 - L))).
    rewrite active_headers_repeat. reflexivity.
  - destruct (nonempty t); simpl; lia.
Qed.

Lemma consecutive_ok_nil : consecutive_ok [].
Proof. intros [|i] c c'; discriminate. Qed.

Lemma consecutive_ok_single c : consecutive_ok [c].
Proof. intros [|[|i]] a b; simpl; discriminate. Qed.

Lemma consecutive_ok_snoc cs clast c :
  consecutive_ok (cs ++ [clast]) ->
  next_headers (headers clast) (headers c) ->
  consecutive_ok ((cs ++ [clast]) ++ [c]).
Proof.
  intros Hok Hn i a b Ha Hb.
  assert (Hlen : length (cs ++ [clast]) = S (length cs))
    by (rewrite length_app; simpl; lia).
  destruct (Nat.lt_ge_cases (S i) (length (cs ++ [clast]))) as [Hi|Hi].
  - rewrite nth_error_app1 in Ha by lia.
    rewrite nth_error_app1 in Hb by lia. eapply Hok; eauto.
  - assert (Hb' : S i < length ((cs ++ [clast]) ++ [c]))
      by (apply nth_error_Some; congruence).
    rewrite length_app in Hb'. simpl in Hb'.
    assert (i = length cs) by lia. subst i.
    rewrite nth_error_app2 in Hb by lia.
    replace (S (length cs) - length (cs ++ [clast])) with 0 in Hb by lia.
    injection Hb as <-.
    rewrite nth_error_app1 in Ha by lia.
    rewrite nth_error_app2, Nat.sub_diag in Ha by lia.
    injection Ha as <-. exact Hn.
Qed.

Lemma snoc_inj (A : Type) (l l' : list A) x y :
  l ++ [x] = l' ++ [y] -> l = l' /\ x = y.
Proof. intros H. apply app_inj_tail in H. exact H. Qed.

Section Consecutive.

Variable src : str.

Lemma tracks_last_init : tracks_last init.
Proof.
  split; [reflexivity|]. split; [apply consecutive_ok_nil|].
  intros cs clast H. destruct cs; discriminate.
Qed.

(** A chunk closed by a flush fits after the chunks before it. *)
Lemma tracks_last_emit st c :
  tracks_last st -> make_chunk src st = Some c ->
  consecutive_ok (chunks st ++ [c]).
Proof.
  intros (_ & Hok & Hlast) M.
  apply make_chunk_some in M as (_ & _ & Mh & _).
  destruct (chunks st) as [|c0 cs0] eqn:E.
  - apply consecutive_ok_single.
  - assert (Hne : c0 :: cs0 <> []) by discriminate.
    destruct (exists_last Hne) as (l & x & Hl). rewrite Hl in *.
    apply consecutive_ok_snoc; auto.
    rewrite Mh. apply (Hlast l x eq_refl).
Qed.

Lemma tracks_last_step st line st' :
  tracks_last st -> step src st line = Some st' -> tracks_last st'.
Proof.
  intros Htr Hstep. pose proof Htr as (Hlen & Hok & Hlast).
  split; [eapply step_headers_length; eauto|].
  destruct (header_match line) as [[g1 g2]|] eqn:E.
  - rewrite (step_header src st line g1 g2 E Hlen) in Hstep.
    injection Hstep as <-. cbn [chunks current_chunk current_headers].
    rewrite flush_eq. destruct (make_chunk src st) as [c|] eqn:M;
      cbn [chunks].
    + split; [eapply tracks_last_emit; eauto|].
      intros cs clast Hcs. apply snoc_inj in Hcs as [_ <-].
      apply make_chunk_some in M as (_ & _ & Mh & _). rewrite Mh.
      split; [apply next_headers_update|].
      exists line, []. split; [reflexivity|congruence].
    + split; [exact Hok|]. intros cs clast Hcs.
      destruct (Hlast cs clast Hcs) as (_ & h & t & Hcc & Hh).
      exfalso. destruct (header_match h) as [[a1 a2]|] eqn:Eh; [|congruence].
      destruct (header_starts_hash h a1 a2 Eh) as (r & ->).
      destruct (join_cons_head [nl] (hash :: r) t) as (r' & Ej).
      destruct (strip_cons_nonspace hash (r ++ r') isspace_hash)
        as (r'' & Es).
      unfold make_chunk in M. rewrite Hcc, Ej in M. simpl in M, Es.
      rewrite Es in M. discriminate.
  - rewrite step_plain in Hstep by assumption. injection Hstep as <-.
    cbn [chunks current_chunk current_headers].
    split; [exact Hok|]. intros cs clast Hcs.
    destruct (Hlast cs clast Hcs) as (Hn & h & t & Hcc & Hh).
    split; [exact Hn|]. exists h, (t ++ [line]). rewrite Hcc. auto.
Qed.

Lemma tracks_last_run lines st st' :
  tracks_last st -> run src st lines = Some st' -> tracks_last st'.
Proof.
  revert st. induction lines as [|l r IH]; intros st Htr; simpl.
  - intros H; injection H as <-. exact Htr.
  - destruct (step src st l) as [st1|] eqn:E; [|discriminate].
    apply IH. eapply tracks_last_step; eauto.
Qed.

End Consecutive.

(** X13: from a returned chunk to the next one, the headers keep a prefix
    of the headers of the first and add one header at most: the path of
    headers never jumps to an unrelated branch. *)
Theorem consecutive_chunks_share_prefix content src :
  exists cs,
    chunk_markdown content src = Some cs /\
    forall i c c',
      nth_error cs i = Some c -> nth_error cs (S i) = Some c' ->
      exists outer rest own,
        headers c = outer ++ rest /\
        headers c' = outer ++ own /\
        length own <= 1.
Proof.
  destruct (chunk_markdown_run src content) as (st & Hrun & _ & Hcm).
  exists (finish src st). split; [exact Hcm|].
  pose proof (tracks_last_run src _ _ _ (tracks_last_init) Hrun) as Htr.
  rewrite finish_eq. destruct (make_chunk src st) as [c|] eqn:M.
  - exact (tracks_last_emit src st c Htr M).
  - apply Htr.
Qed.

(** ** The header line in the text of its chunk *)

Lemma rstrip_app_space s b : all_space b = true -> rstrip (s ++ b) = rstrip s.
Proof.
  intros H. unfold rstrip. rewrite rev_app_distr, drop_while_app_all; auto.
  fold (all_space (rev b)). rewrite all_space_rev. exact H.
Qed.

Lemma rstrip_app_keep s b :
  all_space b = false -> rstrip (s ++ b) = s ++ rstrip b.
Proof.
  intros H. unfold rstrip. rewrite rev_app_distr, drop_while_app_keep.
  - rewrite rev_app_distr, rev_involutive. reflexivity.
  - intros E. destruct (drop_while_decomp isspace (rev b)) as (a & Ha & Hp).
    rewrite E, app_nil_r in Ha. subst a.
    fold (all_space (rev b)) in Hp. rewrite all_space_rev in Hp. congruence.
Qed.

Lemma rstrip_app_prefix s b : exists rest, rstrip (s ++ b) = rstrip s ++ rest.
Proof.
  destruct (all_space b) eqn:E.
  - exists []. rewrite app_nil_r. apply rstrip_app_space; auto.
  - destruct (rstrip_decomp s) as (t & Ht & _).
    exists (t ++ rstrip b). rewrite rstrip_app_keep by exact E.
    rewrite app_assoc, <- Ht. reflexivity.
Qed.

